(** * Dendrite: SQL tracing interceptor, connection factory and hook registry

    A shallow embedding of [internal/sqlutil/trace.go] and
    [internal/hooks/hooks.go], and the properties of these two packages.

    Conventions of the embedding:
    - a Go [interface{}] value is an [any]; the nil interface is [ANil];
    - a Go [error] result is an [option error], [None] being nil;
    - a Go [map[string]T] is a [gmap string T]; reading a missing key gives
      the zero value of [T];
    - package-level variables are the fields of an explicit state record that
      every function threads;
    - a Go panic is the [Panic] outcome of a computation. *)

From Stdlib Require Import ZArith String List Lia.
From stdpp Require Import base option list gmap strings pretty.

Local Open Scope Z_scope.

(** ** Values shared by both packages *)

(** A dynamically typed Go value ([interface{}], [driver.Value]). *)
Inductive any : Type :=
  | ANil
  | AString (s : string)
  | AInt (z : Z)
  | ABool (b : bool).

#[global] Instance any_eq_dec : EqDecision any.
Proof. solve_decision. Defined.

(** Go [error] values: the [io.EOF] sentinel, an error made of a message
    ([errors.New], [fmt.Errorf] with no [%w]) and an error that wraps another
    one ([fmt.Errorf] with [%w]). *)
Inductive error : Type :=
  | io_EOF
  | errorString (s : string)
  | wrapError (s : string) (inner : error).

#[global] Instance error_eq_dec : EqDecision error.
Proof. solve_decision. Defined.

(** [err.Error()] *)
Definition Error (e : error) : string :=
  match e with
  | io_EOF => "EOF"
  | errorString s => s
  | wrapError s _ => s
  end.

(** [strings.HasPrefix(s, prefix)] *)
Definition HasPrefix (s prefix : string) : bool := String.prefix prefix s.

(** [strings.Join(elems, sep)] *)
Fixpoint Join (elems : list string) (sep : string) : string :=
  match elems with
  | [] => ""
  | [e] => e
  | e :: rest => e +:+ sep +:+ Join rest sep
  end.

(** Go's [int] on the 64-bit targets Dendrite is built for: two's complement,
    wrapping on overflow. *)
Definition int_min : Z := - 2 ^ 63.
Definition int_max : Z := 2 ^ 63 - 1.
Definition int_wrap (z : Z) : Z := (z + 2 ^ 63) mod 2 ^ 64 - 2 ^ 63.

Module Hooks.

(** ** [hooks.go] *)

(** A Go function value [func(interface{})]: a reference to a closure, here
    the number of that closure. What a closure does when called is given by
    the [call] parameter below. *)
Definition callback : Type := nat.

(** The package-level variables [hookMap] and [enabled]. [hookMu] is held
    only inside [Attach] and [callbacks] and has no sequential content. *)
Record State : Type := mkState {
  hookMap : gmap string (list callback);
  enabled : bool
}.

(** State of the package when the program starts. *)
Definition init : State := {| hookMap := ∅; enabled := false |}.

Definition KindNewEvent : string := "new_event".

Definition Enable (s : State) : State :=
  {| hookMap := hookMap s; enabled := true |}.

(** Reading a key the map does not hold gives the nil slice. *)
Definition callbacks (kind : string) (s : State) : list callback :=
  default [] (hookMap s !! kind).

Definition Attach (kind : string) (cb : callback) (s : State) : State :=
  if negb (enabled s) then s
  else {| hookMap := <[kind := callbacks kind s ++ [cb]]> (hookMap s);
          enabled := enabled s |}.

(** A call made on the package by the rest of the program. *)
Inductive op : Type :=
  | OpEnable
  | OpAttach (kind : string) (cb : callback)
  | OpRun (kind : string) (data : any).

Definition is_enable (o : op) : bool :=
  match o with OpEnable => true | _ => false end.

Section run.
(** [W] is everything else a callback may touch; a callback may also call
    back into this package, so it acts on the hook state too. *)
Context {W : Type}.
Variable call : callback → any → State * W → State * W.

(** [cbs] is read once, before the first callback runs. *)
Definition Run (kind : string) (data : any) (sw : State * W) : State * W :=
  if negb (enabled sw.1) then sw
  else
    let cbs := callbacks kind sw.1 in
    foldl (λ sw cb, call cb data sw) sw cbs.

Definition step (sw : State * W) (o : op) : State * W :=
  match o with
  | OpEnable => (Enable sw.1, sw.2)
  | OpAttach kind cb => (Attach kind cb sw.1, sw.2)
  | OpRun kind data => Run kind data sw
  end.

Definition exec (ops : list op) (sw : State * W) : State * W :=
  foldl step sw ops.

(** Callbacks that do not call back into the package. *)
Definition frame : Prop := ∀ cb d s w, (call cb d (s, w)).1 = s.
End run.

(** The callback of the test scenario: it appends what it was called with
    (and which closure it is) to a sequence. *)
Definition recorder (cb : callback) (data : any)
    (sw : State * list (callback * any)) : State * list (callback * any) :=
  (sw.1, sw.2 ++ [(cb, data)]).

(** Specification side: the callbacks that a history of calls attached under
    [K] once hooks were enabled, oldest first, one per [Attach] call. [en]
    tells whether [Enable] was called before the history starts. *)
Fixpoint attached_under (K : string) (en : bool) (ops : list op) : list callback :=
  match ops with
  | [] => []
  | OpEnable :: rest => attached_under K true rest
  | OpAttach kind cb :: rest =>
    (if en && bool_decide (kind = K) then [cb] else []) ++ attached_under K en rest
  | OpRun _ _ :: rest => attached_under K en rest
  end.

(** [call] with a record of the invocations: every call of a callback
    appends the callback and the payload it was given to a sequence kept
    beside [W]. The callback itself neither sees nor changes the sequence. *)
Definition traced {W : Type} (call : callback → any → State * W → State * W)
    (cb : callback) (data : any) (sw : State * (W * list (callback * any)))
    : State * (W * list (callback * any)) :=
  let '(s', w') := call cb data (sw.1, sw.2.1) in
  (s', (w', sw.2.2 ++ [(cb, data)])).

(** A callback that calls back into the package: called, it attaches itself
    once more under [K]. *)
Definition reattaching (K : string) (cb : callback) (data : any)
    (sw : State * unit) : State * unit :=
  (Attach K cb sw.1, sw.2).

End Hooks.

Module Sqlutil.

(** ** Collaborators of [trace.go] that live outside the package *)

(** Modelled from the spec: the [Writer] interface is declared in another file
    of the package. Of a Writer the interceptor only uses [Safe()], the short
    human-readable description of the logical owner of a connection. A value
    of the Go interface type is [option Writer], [None] being the nil
    interface. *)
Record Writer : Type := mkWriter { Safe : string }.

#[global] Instance Writer_eq_dec : EqDecision Writer.
Proof. solve_decision. Defined.

(** Modelled from the spec: [config.DatabaseOptions] is declared in the config
    package; a connection descriptor plus pool sizing. The three pool fields
    are what the accessor methods [MaxOpenConns()], [MaxIdleConns()] and
    [ConnMaxLifetime()] return. *)
Record DatabaseOptions : Type := mkDatabaseOptions {
  ConnectionString : string;
  MaxOpenConns : Z;
  MaxIdleConns : Z;
  ConnMaxLifetime : Z
}.

(** A call of one of the pool setters of [*sql.DB]. *)
Inductive PoolCall : Type :=
  | SetMaxOpenConns (n : Z)
  | SetMaxIdleConns (n : Z)
  | SetConnMaxLifetime (d : Z).

#[global] Instance PoolCall_eq_dec : EqDecision PoolCall.
Proof. solve_decision. Defined.

(** The [*sql.DB] handle as far as this package touches it: the driver name
    and data source it was opened with, and the pool setters that were
    called on it, in call order. *)
Record DB : Type := mkDB {
  db_driver : string;
  db_dsn : string;
  db_pool : list PoolCall
}.

(** [driver.NamedValue] *)
Record NamedValue : Type := mkNamedValue {
  nv_Name : string;
  nv_Ordinal : Z;
  nv_Value : any
}.

(** What the package takes from its environment: the trace switch read at
    start-up ([DENDRITE_TRACE_SQL]), the descriptor classifiers of
    [config.DataSource], [SQLiteDriverName] and [ParseFileURI] of sibling
    files, [sql.Open] of the standard library, and the formatting verbs of
    [fmt] that are not plain string concatenation. *)
Record Env : Type := mkEnv {
  tracingEnabled : bool;
  IsSQLite : string → bool;
  IsPostgres : string → bool;
  SQLiteDriverName : string;
  ParseFileURI : string → string + error;
  sql_Open : string → string → option error;
  redact_dsn : string → string;
  fmt_q : any → string;
  fmt_args : list NamedValue → string
}.

(** ** Logging sink *)

Inductive Level : Type := InfoLevel | DebugLevel.

Inductive FieldValue : Type :=
  | FString (s : string)
  | FDuration (d : Z)
  | FError (e : option error)
  | FMethod (name : string).

(** One call of the logrus sink: level, structured fields, message. *)
Record Entry : Type := mkEntry {
  entry_level : Level;
  entry_fields : list (string * FieldValue);
  entry_msg : string
}.

#[global] Instance Level_eq_dec : EqDecision Level.
Proof. solve_decision. Defined.
#[global] Instance FieldValue_eq_dec : EqDecision FieldValue.
Proof. solve_decision. Defined.
#[global] Instance Entry_eq_dec : EqDecision Entry.
Proof. solve_decision. Defined.

(** ** Package state and the monad that threads it *)

(** The package-level variables [instCount] and [dbToWriter], and the log
    lines emitted so far (oldest first). *)
Record World : Type := mkWorld {
  instCount : Z;
  dbToWriter : gmap string (option Writer);
  sink : list Entry
}.

(** State of the package after [init()]. *)
Definition init : World :=
  {| instCount := 0; dbToWriter := ∅; sink := [] |}.

Inductive outcome (A : Type) : Type :=
  | Done (a : A)
  | Panic (reason : string).
Arguments Done {A} a.
Arguments Panic {A} reason.

Definition M (A : Type) : Type := World → outcome A * World.

Definition ret {A} (a : A) : M A := λ w, (Done a, w).
Definition bind {A B} (m : M A) (k : A → M B) : M B :=
  λ w, match m w with
       | (Done a, w') => k a w'
       | (Panic r, w') => (Panic r, w')
       end.
Definition panic {A} (reason : string) : M A := λ w, (Panic reason, w).

(** [w] after the lines [es] went to the sink. *)
Definition logged (w : World) (es : list Entry) : World :=
  {| instCount := instCount w; dbToWriter := dbToWriter w; sink := sink w ++ es |}.

Definition emit (e : Entry) : M unit := λ w, (Done tt, logged w [e]).
Definition when (b : bool) (m : M unit) : M unit := if b then m else ret tt.

#[global] Instance M_ret : MRet M := @ret.
#[global] Instance M_bind : MBind M := λ A B k m, bind m k.

(** [logrus.WithField(..)...Debug(...)] once the message is built. *)
Definition logrus_Debug (fields : list (string * FieldValue)) (msg : string) : M unit :=
  emit {| entry_level := DebugLevel; entry_fields := fields; entry_msg := msg |}.

(** ** [context.Context] *)

(** A context is the chain of its [WithValue] frames, innermost first;
    [context.TODO()] is the empty chain. *)
Definition Context : Type := list (any * any).

Definition context_TODO : Context := [].

Definition context_WithValue (parent : Context) (key val : any) : Context :=
  (key, val) :: parent.

(** [ctx.Value(key)]: the value of the innermost frame for [key], nil if
    there is none. *)
Fixpoint Value (ctx : Context) (key : any) : any :=
  match ctx with
  | [] => ANil
  | (k, v) :: parent => if decide (k = key) then v else Value parent key
  end.

Definition CtxDBInstance : string := "db_instance".

(** ** [Open] and [OpenWithWriter] *)

(** [fmt.Errorf] with a [%w] verb. *)
Definition Errorf_w (pre : string) (inner : error) : error :=
  wrapError (pre +:+ Error inner) inner.

(** [db.SetMaxOpenConns], [db.SetMaxIdleConns], [db.SetConnMaxLifetime]: the
    handle remembers the call. *)
Definition db_call (c : PoolCall) (db : DB) : DB :=
  {| db_driver := db_driver db; db_dsn := db_dsn db; db_pool := db_pool db ++ [c] |}.

(** The part of [Open] after the [switch]: lines 139 to 158. *)
Definition open_driver (E : Env) (dbProperties : DatabaseOptions)
    (driverName dsn : string) : M (DB + error) :=
  let driverName :=
    if tracingEnabled E then driverName +:+ "-trace" else driverName in
  match sql_Open E driverName dsn with
  | Some err => mret (inr err)
  | None =>
    let db := {| db_driver := driverName; db_dsn := dsn; db_pool := [] |} in
    if negb (bool_decide (driverName = SQLiteDriverName E)) then
      logrus_Debug
        [("MaxOpenConns", FMethod "MaxOpenConns");
         ("MaxIdleConns", FMethod "MaxIdleConns");
         ("ConnMaxLifetime", FMethod "ConnMaxLifetime");
         ("dataSourceName", FString (redact_dsn E dsn))]
        "Setting DB connection limits" ;;
      let db := db_call (SetMaxOpenConns (MaxOpenConns dbProperties)) db in
      let db := db_call (SetMaxIdleConns (MaxIdleConns dbProperties)) db in
      let db := db_call (SetConnMaxLifetime (ConnMaxLifetime dbProperties)) db in
      mret (inl db)
    else mret (inl db)
  end.

Definition Open (E : Env) (dbProperties : DatabaseOptions) : M (DB + error) :=
  let cs := ConnectionString dbProperties in
  if IsSQLite E cs then
    match ParseFileURI E cs with
    | inr err => mret (inr (Errorf_w "ParseFileURI: " err))
    | inl dsn => open_driver E dbProperties (SQLiteDriverName E) dsn
    end
  else if IsPostgres E cs then
    open_driver E dbProperties "postgres" cs
  else
    mret (inr (errorString
      ("invalid database connection string " +:+ fmt_q E (AString cs)))).

Definition set_registry (n : Z) (m : gmap string (option Writer)) : M unit :=
  λ w, (Done tt, {| instCount := n; dbToWriter := m; sink := sink w |}).

Definition get_instCount : M Z := λ w, (Done (instCount w), w).
Definition get_dbToWriter : M (gmap string (option Writer)) :=
  λ w, (Done (dbToWriter w), w).

Definition OpenWithWriter (E : Env) (dbProperties : DatabaseOptions) (w : option Writer)
  : M ((DB * Context) + error) :=
  r ← Open E dbProperties;
  match r with
  | inr err => mret (inr err)
  | inl db =>
    n ← get_instCount;
    let n := int_wrap (n + 1) in
    let ctxVal := pretty n in
    m ← get_dbToWriter;
    set_registry n (<[ctxVal := w]> m) ;;
    let ctx := context_WithValue context_TODO (AString CtxDBInstance) (AString ctxVal) in
    mret (inl (db, ctx))
  end.

(** ** The interceptor *)

(** Lines 46 to 55, the same in [StmtQueryContext] and [StmtExecContext]:
    the safety label of the call's context. The unchecked type assertion
    [key.(string)] panics on a value that is not a string. *)
Definition safe_label (ctx : Context) : M string :=
  let key := Value ctx (AString CtxDBInstance) in
  match key with
  | ANil => mret ""
  | AString k =>
    m ← get_dbToWriter;
    match default None (m !! k) with
    | None => mret ("no writer for key " +:+ k)
    | Some w => mret (Safe w)
    end
  | _ => panic "interface conversion: interface {} is not string"
  end.

(** The entry of line 57. *)
Definition audit_line (safe query : string) : Entry :=
  {| entry_level := InfoLevel; entry_fields := [];
     entry_msg := "unsafe: " +:+ safe +:+ " -- " +:+ query |}.

(** The entry of line 60. [elapsed] is what [time.Since(startedAt)] reads off
    the clock. *)
Definition trace_line (E : Env) (elapsed : Z) (err : option error)
    (safe query : string) (args : list NamedValue) : Entry :=
  {| entry_level := DebugLevel;
     entry_fields :=
       [("duration", FDuration elapsed); ("error", FError err); ("safe", FString safe)];
     entry_msg := "executed sql query " +:+ query +:+ " args: " +:+ fmt_args E args |}.

(** Lines 56 to 60, the same in both methods. *)
Definition trace_stmt (E : Env) (elapsed : Z) (err : option error)
    (safe query : string) (args : list NamedValue) : M unit :=
  when (negb (bool_decide (safe = "")) && negb (HasPrefix query "SELECT "))
    (emit (audit_line safe query)) ;;
  emit (trace_line E elapsed err safe query args).

(** [stmt] is the delegate [stmt.QueryContext]; [R] is [driver.Rows]. *)
Definition StmtQueryContext {R : Type} (E : Env) (elapsed : Z) (ctx : Context)
    (stmt : Context → list NamedValue → R * option error)
    (query : string) (args : list NamedValue) : M (R * option error) :=
  let '(rows, err) := stmt ctx args in
  safe ← safe_label ctx;
  trace_stmt E elapsed err safe query args ;;
  mret (rows, err).

(** [stmt] is the delegate [stmt.ExecContext]; [R] is [driver.Result]. *)
Definition StmtExecContext {R : Type} (E : Env) (elapsed : Z) (ctx : Context)
    (stmt : Context → list NamedValue → R * option error)
    (query : string) (args : list NamedValue) : M (R * option error) :=
  let '(result, err) := stmt ctx args in
  safe ← safe_label ctx;
  trace_stmt E elapsed err safe query args ;;
  mret (result, err).

(** A [driver.Rows] object: its columns and its [Next], which fills the
    destination slice in place and moves the cursor; both the new cursor and
    the new contents of the slice are results here. *)
Record RowsOps (R : Type) : Type := mkRowsOps {
  Columns : R → list string;
  Next : R → list any → R * list any * option error
}.
Arguments Columns {R} _ _.
Arguments Next {R} _ _ _.

(** The loop of lines 98 to 103 over [dest], from index [i], appending to the
    builder [b]; [n] is [len(dest)]. *)
Fixpoint write_values (E : Env) (n i : Z) (vals : list any) (b : string) : string :=
  match vals with
  | [] => b
  | val :: rest =>
    let b := b +:+ fmt_q E val in
    let b := if (i + 1 <=? n - 1) then b +:+ " | " else b in
    write_values E n (i + 1) rest b
  end.

(** [logrus.Debug(msg)] with no field. *)
Definition debug_line (msg : string) : Entry :=
  {| entry_level := DebugLevel; entry_fields := []; entry_msg := msg |}.

Definition RowsNext {R : Type} (E : Env) (ops : RowsOps R) (rows : R) (dest : list any)
    : M (R * list any * option error) :=
  let '(rows, dest, err) := Next ops rows dest in
  if bool_decide (err = Some io_EOF) then mret (rows, dest, err)
  else
    let cols := Columns ops rows in
    emit (debug_line (Join cols " | ")) ;;
    let b := write_values E (Z.of_nat (length dest)) 0 dest "" in
    emit (debug_line b) ;;
    mret (rows, dest, err).

(** ** Vocabulary of the properties *)

(** The log lines a computation emits when run in [w]. *)
Definition emitted {A : Type} (m : M A) (w : World) : list Entry :=
  drop (length (sink w)) (sink (m w).2).

(** The elevated-severity entry of line 57 is the only [Info] line of the
    package. *)
Definition is_audit (e : Entry) : bool := bool_decide (entry_level e = InfoLevel).

Definition audited {A : Type} (m : M A) (w : World) : bool :=
  existsb is_audit (emitted m w).

(** The value a context holds under the token key is a connection token
    (a string) or is missing. *)
Definition token_or_none (ctx : Context) : bool :=
  match Value ctx (AString CtxDBInstance) with
  | ANil | AString _ => true
  | _ => false
  end.

(** Specification side: the token of the context resolves to a registered
    Writer. *)
Definition resolves_writer (ctx : Context) (w : World) : Prop :=
  ∃ tok W, Value ctx (AString CtxDBInstance) = AString tok ∧
           dbToWriter w !! tok = Some (Some W).

(** The lines one statement execution sends to the sink, given the safety
    label it resolved. *)
Definition stmt_lines (E : Env) (elapsed : Z) (err : option error)
    (safe query : string) (args : list NamedValue) : list Entry :=
  (if negb (bool_decide (safe = "")) && negb (HasPrefix query "SELECT ")
   then [audit_line safe query] else []) ++
  [trace_line E elapsed err safe query args].

(** The three pool setters, in the order [Open] calls them. *)
Definition pool_calls (o : DatabaseOptions) : list PoolCall :=
  [SetMaxOpenConns (MaxOpenConns o); SetMaxIdleConns (MaxIdleConns o);
   SetConnMaxLifetime (ConnMaxLifetime o)].

(** Specification side: the context holds a token, and either the registry
    has no Writer for it or the Writer it has describes itself with a
    non-empty string. *)
Definition carries_label (ctx : Context) (w : World) : Prop :=
  ∃ tok, Value ctx (AString CtxDBInstance) = AString tok ∧
         match default None (dbToWriter w !! tok) with
         | Some W => Safe W ≠ ""
         | None => True
         end.

(** A sequence of [OpenWithWriter] calls, one after the other; the handles
    and contexts they return are dropped. *)
Definition run (E : Env) (calls : list (DatabaseOptions * option Writer)) (w : World)
    : World :=
  foldl (λ w c, (OpenWithWriter E c.1 c.2 w).2) w calls.

(** The keys of the registry are renderings of counter values in [(lo, n]],
    where [n] is the current counter, and the counter is a Go [int]. *)
Definition tokens_below_counter (lo : Z) (w : World) : Prop :=
  int_min ≤ lo ≤ instCount w ∧ instCount w ≤ int_max ∧
  ∀ k, is_Some (dbToWriter w !! k) → ∃ n, lo < n ≤ instCount w ∧ k = pretty n.

(** A result set held in memory, as a driver hands one out: the column names
    and the rows not fetched yet. [Next] copies the first of them into the
    destination, or returns [io.EOF] and leaves the destination as it is. *)
Definition slice_rows : RowsOps (list string * list (list any)) :=
  {| Columns := λ r, r.1;
     Next := λ r dest,
       match r.2 with
       | [] => (r, dest, Some io_EOF)
       | row :: rest => ((r.1, rest), row, None)
       end |}.

(** ** An environment to evaluate examples in *)

(** A native build: the SQLite driver is registered as [sqlite3], descriptors
    are classified by their scheme, [sql.Open] accepts the four registered
    driver names, and the formatting verbs are kept simple. *)
Definition example_q (v : any) : string :=
  match v with
  | AString s => "'" +:+ s +:+ "'"
  | AInt z => pretty z
  | ABool b => if b then "true" else "false"
  | ANil => "nil"
  end.

Definition example_env (tracing : bool) : Env :=
  {| tracingEnabled := tracing;
     IsSQLite := λ cs, HasPrefix cs "file:";
     IsPostgres := λ cs, HasPrefix cs "postgres";
     SQLiteDriverName := "sqlite3";
     ParseFileURI := λ cs, inl (String.substring 5 (String.length cs - 5) cs);
     sql_Open := λ driverName _,
       if bool_decide (driverName ∈ ["sqlite3"; "postgres"; "sqlite3-trace"; "postgres-trace"])
       then None else Some (errorString ("sql: unknown driver " +:+ driverName));
     redact_dsn := λ dsn, dsn;
     fmt_q := example_q;
     fmt_args := λ args, Join ((λ a, example_q (nv_Value a)) <$> args) " " |}.

Definition sqlite_options : DatabaseOptions :=
  {| ConnectionString := "file:msc2836_test.db";
     MaxOpenConns := 100; MaxIdleConns := 5; ConnMaxLifetime := -1 |}.

Definition postgres_options : DatabaseOptions :=
  {| ConnectionString := "postgres://dendrite@localhost/dendrite";
     MaxOpenConns := 100; MaxIdleConns := 5; ConnMaxLifetime := -1 |}.

Definition other_options : DatabaseOptions :=
  {| ConnectionString := "mysql://localhost/dendrite";
     MaxOpenConns := 100; MaxIdleConns := 5; ConnMaxLifetime := -1 |}.

(** ** More vocabulary *)

(** [errors.Unwrap(err)] *)
Definition Unwrap (e : error) : option error :=
  match e with
  | wrapError _ inner => Some inner
  | _ => None
  end.

(** The driver name [Open] hands to [sql.Open] for the backend driver
    [name]: line 141. *)
Definition driver_variant (E : Env) (name : string) : string :=
  if tracingEnabled E then name +:+ "-trace" else name.

(** [Open] succeeds on these options (it reads nothing of the package
    state, so any state will do to ask). *)
Definition opens (E : Env) (o : DatabaseOptions) : bool :=
  match (Open E o init).1 with
  | Done (inl _) => true
  | _ => false
  end.

(** How many calls of a sequence of [OpenWithWriter] calls get a handle. *)
Definition successes (E : Env) (calls : list (DatabaseOptions * option Writer)) : nat :=
  length (List.filter (λ c, opens E c.1) calls).

(** The tokens of the registry are exactly the renderings of [1] to the
    counter, one entry each. *)
Definition tokens_dense (w : World) : Prop :=
  0 ≤ instCount w ≤ int_max ∧
  (∀ k, is_Some (dbToWriter w !! k) ↔ ∃ n, 0 < n ≤ instCount w ∧ k = pretty n) ∧
  Z.of_nat (size (dbToWriter w)) = instCount w.

(** The iteration the comment on lines 90 and 91 describes: [Next] is called
    through the interceptor until it returns an error. [fuel] bounds the
    number of calls; [None] is returned when it runs out before an error. *)
Fixpoint drain {R : Type} (E : Env) (ops : RowsOps R) (fuel : nat)
    (rows : R) (dest : list any) : M (option error) :=
  match fuel with
  | O => mret None
  | S fuel =>
    r ← RowsNext E ops rows dest;
    let '(rows, dest, err) := r in
    match err with
    | Some e => mret (Some e)
    | None => drain E ops fuel rows dest
    end
  end.

(** The two lines [RowsNext] logs for a fetched row. *)
Definition row_lines (E : Env) (cols : list string) (row : list any) : list Entry :=
  [debug_line (Join cols " | "); debug_line (Join (fmt_q E <$> row) " | ")].




End Sqlutil.

Module Msc2836Test.

(** ** The test doubles of the MSC2836 test *)

(** [Ev] is [gomatrixserverlib.HeaderedEvent]; the map holds pointers, which
    may be nil. *)
Record testRoomserverAPI (Ev : Type) : Type := mktestRoomserverAPI {
  userToJoinedRooms : gmap string (list string);
  events : gmap string (option Ev)
}.
Arguments userToJoinedRooms {Ev} _.
Arguments events {Ev} _.

(** [res.Events] is appended to; the new [res.Events] and the returned
    error. *)
Definition QueryEventsByID {Ev : Type} (r : testRoomserverAPI Ev)
    (req_EventIDs : list string) (res_Events : list Ev) : list Ev * option error :=
  (foldl (λ res_Events eventID,
            match default None (events r !! eventID) with
            | Some ev => res_Events ++ [ev]
            | None => res_Events
            end) res_Events req_EventIDs,
   None).

(** The fields of [roomserver.QueryMembershipForUserResponse] the double
    writes. *)
Record MembershipResponse : Type := mkMembershipResponse {
  IsInRoom : bool;
  HasBeenInRoom : bool;
  Membership : string
}.

(** The loop of lines 320 to 327, with its [break]. *)
Fixpoint membership_loop (rooms : list string) (req_RoomID : string)
    (res : MembershipResponse) : MembershipResponse :=
  match rooms with
  | [] => res
  | roomID :: rooms =>
    if decide (roomID = req_RoomID)
    then {| IsInRoom := true; HasBeenInRoom := true; Membership := "join" |}
    else membership_loop rooms req_RoomID res
  end.

Definition QueryMembershipForUser {Ev : Type} (r : testRoomserverAPI Ev)
    (req_UserID req_RoomID : string) (res : MembershipResponse)
    : MembershipResponse * option error :=
  let rooms := default [] (userToJoinedRooms r !! req_UserID) in
  (membership_loop rooms req_RoomID res, None).

(** Lines 347 to 349 of [injectEvents]: one [hooks.Run] per event. *)
Definition inject_runs {W : Type}
    (call : Hooks.callback → any → Hooks.State * W → Hooks.State * W)
    (events : list any) (sw : Hooks.State * W) : Hooks.State * W :=
  foldl (λ sw ev, Hooks.Run call Hooks.KindNewEvent ev sw) sw events.

End Msc2836Test.

Module HooksProps.
Import Hooks.

Section facts.
Context {W : Type}.
Variable call : callback → any → State * W → State * W.

Lemma Run_disabled kind data (sw : State * W) :
  enabled sw.1 = false → Run call kind data sw = sw.
Proof. intros H. unfold Run. by rewrite H. Qed.

Lemma Run_enabled kind data (sw : State * W) :
  enabled sw.1 = true →
  Run call kind data sw = foldl (λ sw cb, call cb data sw) sw (callbacks kind sw.1).
Proof. intros H. unfold Run. by rewrite H. Qed.

Lemma Attach_disabled kind cb s : enabled s = false → Attach kind cb s = s.
Proof. intros H. unfold Attach. by rewrite H. Qed.

Lemma callbacks_Attach kind cb K s :
  enabled s = true →
  callbacks K (Attach kind cb s) =
  callbacks K s ++ (if bool_decide (kind = K) then [cb] else []).
Proof.
  intros H. unfold Attach. rewrite H. cbn [negb]. unfold callbacks at 1. cbn [hookMap].
  case_bool_decide as HK.
  - subst. by rewrite lookup_insert_eq.
  - rewrite lookup_insert_ne by done. by rewrite app_nil_r.
Qed.

Lemma enabled_Attach kind cb s : enabled (Attach kind cb s) = enabled s.
Proof. unfold Attach. by destruct (enabled s) eqn:He. Qed.

Lemma foldl_call_frame (Hf : frame call) d cbs s w :
  (foldl (λ sw cb, call cb d sw) (s, w) cbs).1 = s.
Proof.
  revert w. induction cbs as [|cb cbs IH]; intros w; [done|].
  cbn [foldl]. specialize (Hf cb d s w). destruct (call cb d (s, w)) as [s' w'].
  cbn in Hf. subst. apply IH.
Qed.

Lemma Run_frame (Hf : frame call) kind d s w : (Run call kind d (s, w)).1 = s.
Proof.
  unfold Run. destruct (negb _); [done|]. by apply foldl_call_frame.
Qed.

Lemma step_table (Hf : frame call) K o s w :
  let sw' := step call (s, w) o in
  enabled sw'.1 = enabled s || is_enable o ∧
  callbacks K sw'.1 = callbacks K s ++ attached_under K (enabled s) [o].
Proof.
  destruct o as [|kind cb|kind d]; cbn [step is_enable attached_under fst snd].
  - unfold callbacks. cbn [Enable enabled hookMap].
    split; [by rewrite orb_true_r | by rewrite app_nil_r].
  - rewrite enabled_Attach, orb_false_r, app_nil_r. split; [done|].
    destruct (enabled s) eqn:He.
    + by rewrite callbacks_Attach.
    + rewrite Attach_disabled by done. by rewrite app_nil_r.
  - rewrite Run_frame by done. by rewrite orb_false_r, app_nil_r.
Qed.

Lemma attached_under_cons K en o ops :
  attached_under K en (o :: ops) =
  attached_under K en [o] ++ attached_under K (en || is_enable o) ops.
Proof.
  destruct o; cbn [attached_under is_enable]; rewrite ?orb_false_r, ?orb_true_r, ?app_nil_r; done.
Qed.

Lemma exec_table (Hf : frame call) K ops s w :
  let sw' := exec call ops (s, w) in
  enabled sw'.1 = enabled s || existsb is_enable ops ∧
  callbacks K sw'.1 = callbacks K s ++ attached_under K (enabled s) ops.
Proof.
  revert s w. induction ops as [|o ops IH]; intros s w.
  - cbn. by rewrite orb_false_r, app_nil_r.
  - unfold exec. cbn [foldl existsb].
    destruct (step_table Hf K o s w) as [He Hc].
    destruct (step call (s, w) o) as [s1 w1]. cbn [fst] in He, Hc.
    destruct (IH s1 w1) as [He' Hc']. unfold exec in He', Hc'. cbn zeta in He', Hc'.
    split.
    + rewrite He', He. by rewrite orb_assoc.
    + rewrite Hc', Hc, He, (attached_under_cons K (enabled s) o ops). by rewrite app_assoc.
Qed.

Lemma exec_never_enabled ops (w : W) :
  existsb is_enable ops = false → exec call ops (init, w) = (init, w).
Proof.
  assert (∀ s w, enabled s = false → existsb is_enable ops = false →
            exec call ops (s, w) = (s, w)) as H.
  { induction ops as [|o ops IH]; intros s w' Hs Hn; [done|].
    cbn [existsb] in Hn. apply orb_false_iff in Hn as [Ho Hn].
    unfold exec. cbn [foldl].
    assert (step call (s, w') o = (s, w')) as ->.
    { destruct o; cbn [step fst snd]; [done| |].
      - by rewrite Attach_disabled.
      - by rewrite Run_disabled. }
    by apply IH. }
  by apply H.
Qed.

(** C3. Once [Enable] has been called, [Run K p] runs exactly the callbacks
    that were attached under [K] while hooks were enabled: one call per
    [Attach], in attachment order, each on the state its predecessor left, and
    [Run] returns the state the last one left. Stated for callbacks that do
    not call back into the package, so that the history of calls made on the
    package is the whole history. *)
Theorem Run_invokes_attached_in_order (ops : list op) (K : string) (p : any) (w0 : W) :
  frame call →
  existsb is_enable ops = true →
  let sw := exec call ops (init, w0) in
  Run call K p sw = foldl (λ sw cb, call cb p sw) sw (attached_under K false ops).
Proof.
  intros Hf He sw.
  destruct (exec_table Hf K ops init w0) as [Hen Hcb]. fold sw in Hen, Hcb.
  rewrite He in Hen. cbn in Hen.
  rewrite Run_enabled by done. by rewrite Hcb.
Qed.

(** C4. While [Enable] has never been called, [Attach K cb] followed by
    [Run K p] changes neither the hook table nor anything a callback could
    touch: no callback is run, whatever callbacks do. *)
Theorem never_enabled_Attach_Run_noop (ops : list op) (K : string) (cb : callback)
    (p : any) (w0 : W) :
  existsb is_enable ops = false →
  let sw := exec call ops (init, w0) in
  let s1 := Attach K cb sw.1 in
  let sw2 := Run call K p (s1, sw.2) in
  sw = (init, w0) ∧ s1 = sw.1 ∧ sw2 = sw.
Proof.
  intros Hn sw s1 sw2. subst sw2 s1 sw.
  rewrite exec_never_enabled by done. cbn [fst snd].
  rewrite Attach_disabled by done. by rewrite Run_disabled.
Qed.

End facts.

Lemma recorder_frame : frame recorder.
Proof. by intros cb d s w. Qed.

(** What the recorder holds after a run of callbacks. *)
Lemma foldl_recorder (p : any) (cbs : list callback) s tr :
  foldl (λ sw cb, recorder cb p sw) (s, tr) cbs = (s, tr ++ ((λ cb, (cb, p)) <$> cbs)).
Proof.
  revert tr. induction cbs as [|cb cbs IH]; intros tr; cbn [foldl fmap list_fmap].
  - by rewrite app_nil_r.
  - unfold recorder at 2. cbn [fst snd]. rewrite IH. by rewrite <- app_assoc.
Qed.

Lemma Run_invokes_attached_in_order_witness :
  let ops := [OpAttach KindNewEvent 0%nat; OpEnable; OpAttach KindNewEvent 1%nat;
              OpAttach KindNewEvent 2%nat; OpAttach "other" 3%nat;
              OpAttach KindNewEvent 1%nat] in
  let X := AString "X" in
  (Run recorder KindNewEvent X (exec recorder ops (init, []))).2
  = [(1%nat, X); (2%nat, X); (1%nat, X)].
Proof.
  intros ops X.
  rewrite (Run_invokes_attached_in_order recorder ops KindNewEvent X []
             recorder_frame eq_refl).
  rewrite (surjective_pairing (exec recorder ops (init, []))).
  rewrite foldl_recorder. vm_compute. reflexivity.
Defined.

Lemma never_enabled_Attach_Run_noop_witness :
  let ops := [OpAttach KindNewEvent 0%nat; OpRun KindNewEvent (AString "Y")] in
  let sw := exec recorder ops (init, []) in
  Run recorder KindNewEvent (AString "X") (Attach KindNewEvent 1%nat sw.1, sw.2)
  = (init, []).
Proof.
  intros ops sw.
  destruct (never_enabled_Attach_Run_noop recorder ops KindNewEvent 1%nat
              (AString "X") [] eq_refl) as (H1 & H2 & H3).
  fold sw in H1, H2, H3. cbn zeta in H3. rewrite H3. exact H1.
Defined.

(** The scenario of the test suite: three runs of one recording callback. *)
Example three_runs :
  let X := AString "X" in
  (exec recorder [OpEnable; OpAttach KindNewEvent 7%nat; OpRun KindNewEvent X;
                  OpRun KindNewEvent X; OpRun KindNewEvent X] (init, [])).2
  = [(7%nat, X); (7%nat, X); (7%nat, X)].
Proof. vm_compute. reflexivity. Qed.

End HooksProps.

Module SqlutilProps.
Import Sqlutil.

(** Unfold the monad down to state passing. *)
Ltac run_M :=
  unfold mbind, M_bind, bind, mret, M_ret, ret, when, logrus_Debug, emit, panic, get_instCount, get_dbToWriter, set_registry; cbn beta iota.

Lemma logged_nil w : logged w [] = w.
Proof. destruct w. unfold logged. cbn. by rewrite app_nil_r. Qed.

Lemma logged_logged w es1 es2 : logged (logged w es1) es2 = logged w (es1 ++ es2).
Proof. unfold logged. cbn. by rewrite app_assoc. Qed.

Lemma emitted_logged {A} (m : M A) w r es :
  m w = (r, logged w es) → emitted m w = es.
Proof.
  intros H. unfold emitted. rewrite H. cbn. by rewrite drop_app_length.
Qed.

Lemma length_append (s t : string) :
  String.length (s +:+ t) = (String.length s + String.length t)%nat.
Proof. induction s as [|c s IH]; simpl; [done | by f_equal]. Qed.

Lemma append_trace_ne (s : string) : s +:+ "-trace" ≠ s.
Proof.
  intros H. apply (f_equal String.length) in H.
  rewrite length_append in H. cbn in H. lia.
Qed.

(** What [open_driver] does, by cases on [sql.Open]. *)
Lemma open_driver_cases E o driverName dsn w :
  let name := if tracingEnabled E then driverName +:+ "-trace" else driverName in
  open_driver E o driverName dsn w =
  match sql_Open E name dsn with
  | Some err => (Done (inr err), w)
  | None =>
    if bool_decide (name = SQLiteDriverName E)
    then (Done (inl {| db_driver := name; db_dsn := dsn; db_pool := [] |}), w)
    else (Done (inl {| db_driver := name; db_dsn := dsn; db_pool := pool_calls o |}),
          logged w [ {| entry_level := DebugLevel;
                        entry_fields :=
                          [("MaxOpenConns", FMethod "MaxOpenConns");
                           ("MaxIdleConns", FMethod "MaxIdleConns");
                           ("ConnMaxLifetime", FMethod "ConnMaxLifetime");
                           ("dataSourceName", FString (redact_dsn E dsn))];
                        entry_msg := "Setting DB connection limits" |} ])
  end.
Proof.
  intros name. unfold open_driver. fold name.
  destruct (sql_Open E name dsn); [done|].
  case_bool_decide; [done|]. cbn [negb]. by run_M.
Qed.

(** [Open] never panics and touches nothing but the sink; when it fails it
    does not log either. *)
Lemma Open_frame E o w :
  ∃ r es, Open E o w = (Done r, logged w es) ∧
          (∀ err, r = inr err → es = []).
Proof.
  assert (∀ driverName dsn, ∃ r es,
            open_driver E o driverName dsn w = (Done r, logged w es) ∧
            (∀ err, r = inr err → es = [])) as Hd.
  { intros driverName dsn. rewrite open_driver_cases.
    destruct (sql_Open E _ dsn) as [err|].
    - exists (inr err), []. by rewrite logged_nil.
    - case_bool_decide.
      + eexists (inl _), []. by rewrite logged_nil.
      + eexists (inl _), [_]. split; [done|]. by intros. }
  unfold Open.
  destruct (IsSQLite E _).
  - destruct (ParseFileURI E _) as [dsn|err]; [apply Hd|].
    eexists (inr _), []. by rewrite logged_nil.
  - destruct (IsPostgres E _); [apply Hd|].
    eexists (inr _), []. by rewrite logged_nil.
Qed.

(** *** The connection factory *)

(** The default branch of [Open], for classifiers that leave a descriptor
    to neither kind. *)
Lemma Open_default_branch E (o : DatabaseOptions) (w : World) :
  IsSQLite E (ConnectionString o) = false →
  IsPostgres E (ConnectionString o) = false →
  Open E o w =
  (Done (inr (errorString ("invalid database connection string " +:+
                           fmt_q E (AString (ConnectionString o))))), w).
Proof. intros Hs Hp. unfold Open. by rewrite Hs, Hp. Qed.




(** The networked backend gets the three pool settings, trace switch on or
    off, provided the SQLite driver is not itself registered under one of
    the two Postgres names. *)
Lemma Open_postgres_pool E o w db w' :
  IsSQLite E (ConnectionString o) = false →
  IsPostgres E (ConnectionString o) = true →
  SQLiteDriverName E ≠ "postgres" → SQLiteDriverName E ≠ "postgres-trace" →
  Open E o w = (Done (inl db), w') →
  db_pool db = pool_calls o.
Proof.
  intros Hs Hp Hn1 Hn2. unfold Open. rewrite Hs, Hp, open_driver_cases.
  destruct (sql_Open E _ _); [done|].
  case_bool_decide as Hd.
  - exfalso. destruct (tracingEnabled E); [apply Hn2 | apply Hn1]; by rewrite <- Hd.
  - intros [= <- _]. done.
Qed.

(** The embedded backend gets none of them when the trace switch is off. *)
Lemma Open_sqlite_untraced_pool E o w db w' :
  tracingEnabled E = false →
  IsSQLite E (ConnectionString o) = true →
  Open E o w = (Done (inl db), w') →
  db_pool db = [].
Proof.
  intros Ht Hs. unfold Open. rewrite Hs.
  destruct (ParseFileURI E _) as [dsn|err]; [|done].
  rewrite open_driver_cases, Ht.
  destruct (sql_Open E _ _); [done|].
  rewrite bool_decide_eq_true_2 by done. by intros [= <- _].
Qed.

(** With the trace switch on, the driver name compared with
    [SQLiteDriverName()] on line 147 already carries the [-trace] suffix of
    line 141, so the comparison never succeeds: the embedded backend gets the
    three pool settings too. *)
Lemma Open_sqlite_traced_pool E o w db w' :
  tracingEnabled E = true →
  IsSQLite E (ConnectionString o) = true →
  Open E o w = (Done (inl db), w') →
  db_pool db = pool_calls o.
Proof.
  intros Ht Hs. unfold Open. rewrite Hs.
  destruct (ParseFileURI E _) as [dsn|err]; [|done].
  rewrite open_driver_cases, Ht.
  destruct (sql_Open E _ _); [done|].
  rewrite bool_decide_eq_false_2 by apply append_trace_ne. by intros [= <- _].
Qed.

(** C2, at the input where the code departs from it: a SQLite descriptor
    opened with the trace switch on comes back with all three pool setters
    called. *)
Theorem Open_sqlite_traced_sets_pool :
  ∃ w', Open (example_env true) sqlite_options init =
        (Done (inl {| db_driver := "sqlite3-trace"; db_dsn := "msc2836_test.db";
                      db_pool := [SetMaxOpenConns 100; SetMaxIdleConns 5;
                                  SetConnMaxLifetime (-1)] |}), w').
Proof. eexists. vm_compute. reflexivity. Qed.

(** The same descriptor with the switch off: no setter is called. *)
Example Open_sqlite_untraced :
  Open (example_env false) sqlite_options init =
  (Done (inl {| db_driver := "sqlite3"; db_dsn := "msc2836_test.db"; db_pool := [] |}),
   init).
Proof. vm_compute. reflexivity. Qed.

(** What [OpenWithWriter] does, by cases on [Open]. *)
Lemma OpenWithWriter_cases E o wr w :
  OpenWithWriter E o wr w =
  match Open E o w with
  | (Done (inl db), w1) =>
    let n := int_wrap (instCount w1 + 1) in
    (Done (inl (db, [(AString CtxDBInstance, AString (pretty n))])),
     {| instCount := n; dbToWriter := <[pretty n := wr]> (dbToWriter w1);
        sink := sink w1 |})
  | (Done (inr err), w1) => (Done (inr err), w1)
  | (Panic r, w1) => (Panic r, w1)
  end.
Proof.
  unfold OpenWithWriter. run_M.
  by destruct (Open E o w) as [[[db|err]|r] w1].
Qed.

(** C10. When [Open] fails, [OpenWithWriter] returns that error with neither
    handle nor context, and the package state is the one before the call: no
    token minted, none registered. *)
Theorem OpenWithWriter_failure_atomic E o (wr : option Writer) (w w1 : World) err :
  Open E o w = (Done (inr err), w1) →
  OpenWithWriter E o wr w = (Done (inr err), w) ∧ w1 = w.
Proof.
  intros H. rewrite OpenWithWriter_cases, H.
  destruct (Open_frame E o w) as (r & es & Ho & Hes).
  rewrite Ho in H. injection H as -> <-.
  rewrite (Hes err eq_refl), logged_nil. done.
Qed.

Lemma OpenWithWriter_failure_atomic_witness :
  ∃ err, OpenWithWriter (example_env true) other_options (Some {| Safe := "roomserver" |})
           init = (Done (inr err), init).
Proof.
  eexists.
  refine (proj1 (OpenWithWriter_failure_atomic (example_env true) other_options _
                   init init _ _)).
  vm_compute. reflexivity.
Defined.

Lemma int_wrap_succ n : int_min ≤ n → n < int_max → int_wrap (n + 1) = n + 1.
Proof.
  unfold int_min, int_max, int_wrap. intros Hlo Hhi.
  rewrite Z.mod_small; lia.
Qed.

(** One successful or failed [OpenWithWriter] below the top of the counter
    range: the counter moves up by at most one, and a key rendered from a
    counter value that is not above the old counter keeps its entry. *)
Lemma OpenWithWriter_step E o wr w :
  int_min ≤ instCount w → instCount w < int_max →
  let w' := (OpenWithWriter E o wr w).2 in
  instCount w ≤ instCount w' ≤ instCount w + 1 ∧
  ∀ n, n ≤ instCount w → dbToWriter w' !! pretty n = dbToWriter w !! pretty n.
Proof.
  intros Hlo Hhi. rewrite OpenWithWriter_cases.
  destruct (Open_frame E o w) as (r & es & -> & _).
  destruct r as [db|err]; cbn.
  - rewrite int_wrap_succ by done. split; [lia|].
    intros n Hn. apply lookup_insert_ne. intros Heq.
    apply (inj pretty) in Heq. lia.
  - split; [lia|done].
Qed.

Lemma run_step E calls w :
  int_min ≤ instCount w → instCount w + Z.of_nat (length calls) ≤ int_max →
  let w' := run E calls w in
  instCount w ≤ instCount w' ≤ instCount w + Z.of_nat (length calls) ∧
  ∀ n, n ≤ instCount w → dbToWriter w' !! pretty n = dbToWriter w !! pretty n.
Proof.
  revert w. induction calls as [|[o wr] calls IH]; intros w Hlo Hhi.
  - cbn. split; [lia|done].
  - cbn [length] in Hhi. unfold run. cbn [foldl fst snd].
    destruct (OpenWithWriter_step E o wr w) as [Hc Hk]; [lia..|].
    cbn zeta in Hc, Hk.
    destruct (IH (OpenWithWriter E o wr w).2) as [Hc' Hk']; [lia..|].
    unfold run in Hc', Hk'. cbn zeta in Hc', Hk'.
    split; [cbn [length]; lia|].
    intros n Hn. rewrite Hk' by lia. by apply Hk.
Qed.

Lemma tokens_below_counter_init : tokens_below_counter 0 init.
Proof.
  unfold tokens_below_counter, init, int_min, int_max. cbn.
  repeat split; try lia. intros k [v Hv]. by rewrite lookup_empty in Hv.
Qed.

Lemma OpenWithWriter_invariant lo E o wr w :
  tokens_below_counter lo w → instCount w < int_max →
  tokens_below_counter lo (OpenWithWriter E o wr w).2.
Proof.
  intros (Hlo & Hmax & Hkeys) Hhi. rewrite OpenWithWriter_cases.
  destruct (Open_frame E o w) as (r & es & -> & _).
  destruct r as [db|err]; cbn; [|done].
  assert (int_min ≤ instCount w) by lia.
  unfold tokens_below_counter. cbn. rewrite int_wrap_succ by done.
  repeat split; try lia.
  intros k Hk. destruct (decide (k = pretty (instCount w + 1))) as [->|Hne].
  - exists (instCount w + 1). split; [lia|done].
  - rewrite lookup_insert_ne in Hk by done.
    destruct (Hkeys k Hk) as (n & Hn & ->). exists n. split; [lia|done].
Qed.

Lemma run_invariant lo E calls w :
  tokens_below_counter lo w →
  instCount w + Z.of_nat (length calls) ≤ int_max →
  tokens_below_counter lo (run E calls w).
Proof.
  revert w. induction calls as [|[o wr] calls IH]; intros w Hinv Hhi; [done|].
  cbn [length] in Hhi. unfold run. cbn [foldl fst snd]. apply IH.
  - apply OpenWithWriter_invariant; [done|lia].
  - assert (int_min ≤ instCount w) by (destruct Hinv; lia).
    destruct (OpenWithWriter_step E o wr w) as [Hc _]; [lia..|]. cbn zeta in Hc. lia.
Qed.

(** Whatever the counter does, no call ever drops a key of the registry. *)
Lemma run_keeps_keys E calls w (k : string) :
  is_Some (dbToWriter w !! k) → is_Some (dbToWriter (run E calls w) !! k).
Proof.
  revert w. induction calls as [|[o wr] calls IH]; intros w Hk; [done|].
  unfold run. cbn [foldl fst snd]. apply IH.
  rewrite OpenWithWriter_cases.
  destruct (Open_frame E o w) as (r & es & -> & _).
  destruct r as [db|err]; cbn; [|done].
  by rewrite lookup_insert_is_Some'; right.
Qed.

(** C9. In a sequence of [OpenWithWriter] calls made one after the other from
    the initial state, short enough for the counter to stay a Go [int]
    (fewer than [2^63] calls), each successful call moves the counter up by
    one, returns a context holding the rendering of the new counter, registers
    that token, which the registry did not hold, and changes no other entry;
    and whatever is registered then (the new entry and all older ones) is
    still registered, to the same Writer, after the rest of the sequence. *)
Theorem registry_append_only E (pre post : list (DatabaseOptions * option Writer))
    (o : DatabaseOptions) (wr : option Writer) (db : DB) (ctx : Context) (w1 : World) :
  Z.of_nat (length (pre ++ (o, wr) :: post)) ≤ int_max →
  let w := run E pre init in
  OpenWithWriter E o wr w = (Done (inl (db, ctx)), w1) →
  ∃ tok,
    Value ctx (AString CtxDBInstance) = AString tok ∧
    instCount w1 = instCount w + 1 ∧
    tok = pretty (instCount w1) ∧
    dbToWriter w !! tok = None ∧
    dbToWriter w1 = <[tok := wr]> (dbToWriter w) ∧
    ∀ k v, dbToWriter w1 !! k = Some v → dbToWriter (run E post w1) !! k = Some v.
Proof.
  intros Hlen w Hcall.
  rewrite length_app in Hlen. cbn [length] in Hlen.
  assert (tokens_below_counter 0 w ∧ instCount w ≤ Z.of_nat (length pre)) as [Hinv Hcnt].
  { split.
    - apply run_invariant; [apply tokens_below_counter_init | cbn; lia].
    - destruct (run_step E pre init) as [Hc _]; cbn; [unfold int_min; lia | lia |].
      cbn in Hc. fold w in Hc. lia. }
  assert (tokens_below_counter 0 w1) as Hinv1.
  { replace w1 with (OpenWithWriter E o wr w).2 by (by rewrite Hcall).
    apply OpenWithWriter_invariant; [done|lia]. }
  destruct Hinv as (Hlo & Hmax & Hkeys).
  rewrite OpenWithWriter_cases in Hcall.
  destruct (Open_frame E o w) as (r & es & Ho & _). rewrite Ho in Hcall.
  destruct r as [db'|err]; [|done]. cbn in Hcall.
  rewrite int_wrap_succ in Hcall by (unfold int_min in *; lia).
  injection Hcall as <- <- <-. cbn [instCount dbToWriter].
  exists (pretty (instCount w + 1)). repeat split.
  - destruct (dbToWriter w !! pretty (instCount w + 1)) eqn:Hl; [|done].
    destruct (Hkeys (pretty (instCount w + 1))) as (n & Hn & Heq); [by eexists|].
    apply (inj pretty) in Heq. lia.
  - intros k v Hk.
    set (w1 := {| instCount := instCount w + 1; dbToWriter := _; sink := _ |}) in *.
    destruct Hinv1 as (_ & _ & Hkeys1).
    destruct (Hkeys1 k) as (n & Hn & ->); [by eexists|].
    destruct (run_step E post w1) as [_ Hpres]; cbn [w1 instCount];
      [unfold int_min in *; lia | lia |].
    cbn zeta in Hpres. rewrite Hpres; [done|]. apply Hn.
Qed.

Lemma registry_append_only_witness :
  let E := example_env false in
  let roomserver := Some {| Safe := "roomserver" |} in
  let syncapi := Some {| Safe := "syncapi" |} in
  let pre := [(postgres_options, roomserver); (other_options, syncapi)] in
  let post := [(postgres_options, syncapi)] in
  let w := run E pre init in
  ∃ db ctx w1,
    OpenWithWriter E sqlite_options syncapi w = (Done (inl (db, ctx)), w1) ∧
    ∃ tok,
      Value ctx (AString CtxDBInstance) = AString tok ∧
      instCount w1 = instCount w + 1 ∧
      tok = pretty (instCount w1) ∧
      dbToWriter w !! tok = None ∧
      dbToWriter w1 = <[tok := syncapi]> (dbToWriter w) ∧
      ∀ k v, dbToWriter w1 !! k = Some v → dbToWriter (run E post w1) !! k = Some v.
Proof.
  intros E roomserver syncapi pre post w.
  destruct (OpenWithWriter E sqlite_options syncapi w) as [[[[db ctx]|err]|r] w1] eqn:Hcall.
  - exists db, ctx, w1. split; [reflexivity|].
    refine (registry_append_only E pre post sqlite_options syncapi db ctx w1 _ Hcall).
    unfold int_max. cbn. lia.
  - vm_compute in Hcall. discriminate Hcall.
  - vm_compute in Hcall. discriminate Hcall.
Defined.

(** *** The interceptor *)

Lemma safe_label_cases ctx w :
  safe_label ctx w =
  (match Value ctx (AString CtxDBInstance) with
   | ANil => Done ""
   | AString k =>
     Done (match default None (dbToWriter w !! k) with
           | None => "no writer for key " +:+ k
           | Some W => Safe W
           end)
   | _ => Panic "interface conversion: interface {} is not string"
   end, w).
Proof.
  unfold safe_label. destruct (Value ctx _); try done.
  run_M. by destruct (default None _).
Qed.

Lemma trace_stmt_lines E el err safe q args w :
  trace_stmt E el err safe q args w = (Done tt, logged w (stmt_lines E el err safe q args)).
Proof.
  unfold trace_stmt, stmt_lines. run_M.
  destruct (negb (bool_decide (safe = "")) && negb (HasPrefix q "SELECT ")); cbn.
  - by rewrite logged_logged.
  - done.
Qed.

(** What a statement execution does, by cases on the label resolution. *)
Lemma StmtQueryContext_cases {R} E el ctx (stmt : Context → list NamedValue → R * option error)
    q args w :
  StmtQueryContext E el ctx stmt q args w =
  match (safe_label ctx w).1 with
  | Done safe =>
    (Done (stmt ctx args), logged w (stmt_lines E el (stmt ctx args).2 safe q args))
  | Panic r => (Panic r, w)
  end.
Proof.
  unfold StmtQueryContext. destruct (stmt ctx args) as [rows err].
  rewrite safe_label_cases. cbn [fst snd].
  unfold mbind, M_bind, bind at 1. rewrite safe_label_cases.
  destruct (Value ctx _); try done;
    unfold mbind, M_bind, bind; by rewrite trace_stmt_lines.
Qed.

Lemma StmtExecContext_cases {R} E el ctx (stmt : Context → list NamedValue → R * option error)
    q args w :
  StmtExecContext E el ctx stmt q args w =
  match (safe_label ctx w).1 with
  | Done safe =>
    (Done (stmt ctx args), logged w (stmt_lines E el (stmt ctx args).2 safe q args))
  | Panic r => (Panic r, w)
  end.
Proof.
  unfold StmtExecContext. destruct (stmt ctx args) as [result err].
  rewrite safe_label_cases. cbn [fst snd].
  unfold mbind, M_bind, bind at 1. rewrite safe_label_cases.
  destruct (Value ctx _); try done;
    unfold mbind, M_bind, bind; by rewrite trace_stmt_lines.
Qed.

Lemma audited_stmt_lines E el err safe q args :
  existsb is_audit (stmt_lines E el err safe q args) =
  negb (bool_decide (safe = "")) && negb (HasPrefix q "SELECT ").
Proof.
  unfold stmt_lines.
  by destruct (negb (bool_decide (safe = "")) && negb (HasPrefix q "SELECT ")).
Qed.

Lemma no_writer_label_nonempty (k : string) : "no writer for key " +:+ k ≠ "".
Proof. intros H. apply (f_equal String.length) in H. by rewrite length_append in H. Qed.

Lemma emitted_panic {A} (m : M A) w r : m w = (r, w) → emitted m w = [].
Proof. intros H. unfold emitted. rewrite H. cbn. by rewrite drop_all. Qed.

(** When a statement execution raises the audit, in terms of the context and
    the registry. *)
Lemma audit_condition ctx w q :
  match (safe_label ctx w).1 with
  | Done safe => negb (bool_decide (safe = "")) && negb (HasPrefix q "SELECT ") = true
  | Panic _ => False
  end ↔ carries_label ctx w ∧ HasPrefix q "SELECT " = false.
Proof.
  rewrite safe_label_cases. cbn [fst]. unfold carries_label.
  destruct (Value ctx _) as [|k|z|b]; cbn.
  - split; [done|]. by intros [(tok & ? & _) _].
  - rewrite andb_true_iff, !negb_true_iff, bool_decide_eq_false.
    split.
    + intros [Hs Hq]. split; [|done]. exists k. split; [done|].
      by destruct (default None _).
    + intros [(tok & [= <-] & Hl) Hq]. split; [|done].
      destruct (default None _); [done|]. apply no_writer_label_nonempty.
  - split; [done|]. by intros [(tok & ? & _) _].
  - split; [done|]. by intros [(tok & ? & _) _].
Qed.

(** C1, as the code has it. A statement execution ([StmtQueryContext] or
    [StmtExecContext]) emits the unsafe-write audit entry if and only if the
    safety label it resolved is not empty, that is, the context holds a token
    that is either not registered or registered to a Writer with a non-empty
    description, and the statement text does not begin with [SELECT ]. In
    particular a call whose context holds no token never raises the audit. *)
Theorem audit_iff_label_and_not_select {R : Type} E (el : Z) (ctx : Context)
    (stmt : Context → list NamedValue → R * option error)
    (q : string) (args : list NamedValue) (w : World) :
  (audited (StmtQueryContext E el ctx stmt q args) w = true ↔
   carries_label ctx w ∧ HasPrefix q "SELECT " = false) ∧
  (audited (StmtExecContext E el ctx stmt q args) w = true ↔
   carries_label ctx w ∧ HasPrefix q "SELECT " = false).
Proof.
  assert (∀ m : M (R * option error),
            m w = match (safe_label ctx w).1 with
                  | Done safe =>
                    (Done (stmt ctx args),
                     logged w (stmt_lines E el (stmt ctx args).2 safe q args))
                  | Panic r => (Panic r, w)
                  end →
            audited m w = true ↔ carries_label ctx w ∧ HasPrefix q "SELECT " = false) as H.
  { intros m Hm. rewrite <- audit_condition. unfold audited.
    destruct (safe_label ctx w).1 as [safe|r].
    - rewrite (emitted_logged _ _ _ _ Hm). by rewrite audited_stmt_lines.
    - by rewrite (emitted_panic _ _ _ Hm). }
  split; apply H; [apply StmtQueryContext_cases | apply StmtExecContext_cases].
Qed.

(** C1 as the specification words it fails: with a token that no Writer is
    registered for, an [INSERT] raises the audit. *)
Lemma audit_without_registered_writer :
  let ctx := context_WithValue context_TODO (AString CtxDBInstance) (AString "7") in
  let q := "INSERT INTO t VALUES (1)" in
  audited (StmtExecContext (example_env true) 0 ctx (λ _ _, (tt, None)) q []) init = true ∧
  emitted (StmtExecContext (example_env true) 0 ctx (λ _ _, (tt, None)) q []) init
    !! 0%nat = Some (audit_line "no writer for key 7" q) ∧
  ¬ (resolves_writer ctx init ∧ HasPrefix q "SELECT " = false).
Proof.
  intros ctx q. split; [by vm_compute|]. split; [by vm_compute|].
  intros [(tok & W & _ & Hreg) _]. unfold init in Hreg. cbn [dbToWriter] in Hreg.
  by rewrite lookup_empty in Hreg.
Qed.

(** The same happens through the package alone when the Writer handed to
    [OpenWithWriter] is nil: the token is registered, to no Writer. *)
Example audit_with_nil_writer :
  let E := example_env true in
  let q := "INSERT INTO t VALUES (1)" in
  ∃ db ctx w1,
    OpenWithWriter E postgres_options None init = (Done (inl (db, ctx)), w1) ∧
    drop 1 (emitted (StmtExecContext E 0 ctx (λ _ _, (tt, None)) q []) w1) =
      [trace_line E 0 None "no writer for key 1" q []] ∧
    take 1 (emitted (StmtExecContext E 0 ctx (λ _ _, (tt, None)) q []) w1) =
      [audit_line "no writer for key 1" q].
Proof. eexists _, _, _. split; [by vm_compute|]. by vm_compute. Qed.

(** And a registered Writer whose description is empty is not audited. *)
Example no_audit_with_empty_description :
  let E := example_env true in
  let q := "INSERT INTO t VALUES (1)" in
  ∃ db ctx w1,
    OpenWithWriter E postgres_options (Some {| Safe := "" |}) init
      = (Done (inl (db, ctx)), w1) ∧
    resolves_writer ctx w1 ∧
    audited (StmtExecContext E 0 ctx (λ _ _, (tt, None)) q []) w1 = false.
Proof.
  eexists _, _, _. split; [by vm_compute|]. split; [|by vm_compute].
  exists "1", {| Safe := "" |}. by vm_compute.
Qed.

(** C6. (1) The context a successful [OpenWithWriter E o W] returns holds a
    token under which an intercepted query made next resolves the label
    [Safe W]; (1') so does every later one, after any further
    [OpenWithWriter] calls, as long as the counter stays a Go [int].
    (2) A query whose context holds no token resolves the empty label.
    (3) A query whose context holds a token the registry does not hold
    resolves [no writer for key] followed by the token, which is not the
    empty label. In each case the label is the [safe] field of the trace
    entry the query emits. *)
Theorem query_label_resolution {R : Type} E (el : Z)
    (stmt : Context → list NamedValue → R * option error)
    (q : string) (args : list NamedValue) :
  (∀ o W w db ctx w1,
     OpenWithWriter E o (Some W) w = (Done (inl (db, ctx)), w1) →
     (∃ tok, Value ctx (AString CtxDBInstance) = AString tok) ∧
     StmtQueryContext E el ctx stmt q args w1 =
     (Done (stmt ctx args), logged w1 (stmt_lines E el (stmt ctx args).2 (Safe W) q args))) ∧
  (∀ o W w db ctx w1 calls,
     int_min ≤ instCount w →
     instCount w + 1 + Z.of_nat (length calls) ≤ int_max →
     OpenWithWriter E o (Some W) w = (Done (inl (db, ctx)), w1) →
     let w2 := run E calls w1 in
     StmtQueryContext E el ctx stmt q args w2 =
     (Done (stmt ctx args), logged w2 (stmt_lines E el (stmt ctx args).2 (Safe W) q args))) ∧
  (∀ ctx w,
     Value ctx (AString CtxDBInstance) = ANil →
     StmtQueryContext E el ctx stmt q args w =
     (Done (stmt ctx args), logged w [trace_line E el (stmt ctx args).2 "" q args])) ∧
  (∀ ctx tok w,
     Value ctx (AString CtxDBInstance) = AString tok →
     dbToWriter w !! tok = None →
     let label := "no writer for key " +:+ tok in
     label ≠ "" ∧
     StmtQueryContext E el ctx stmt q args w =
     (Done (stmt ctx args), logged w (stmt_lines E el (stmt ctx args).2 label q args))).
Proof.
  split; [|split; [|split]].
  - intros o W w db ctx w1 Hcall.
    rewrite OpenWithWriter_cases in Hcall.
    destruct (Open_frame E o w) as (r & es & Ho & _). rewrite Ho in Hcall.
    destruct r as [db'|err]; [|done]. cbn in Hcall.
    injection Hcall as <- <- <-.
    rewrite StmtQueryContext_cases, safe_label_cases. cbn.
    rewrite decide_True by done. split; [by eexists|].
    by rewrite lookup_insert_eq.
  - intros o W w db ctx w1 calls Hlo Hhi Hcall w2.
    rewrite OpenWithWriter_cases in Hcall.
    destruct (Open_frame E o w) as (r & es & Ho & _). rewrite Ho in Hcall.
    destruct r as [db'|err]; [|done]. cbn in Hcall.
    rewrite int_wrap_succ in Hcall by (unfold int_max in *; lia).
    injection Hcall as <- <- <-.
    set (w1 := {| instCount := instCount w + 1; dbToWriter := _; sink := _ |}) in *.
    destruct (run_step E calls w1) as [_ Hpres]; cbn [w1 instCount]; [lia..|].
    cbn zeta in Hpres. fold w2 in Hpres.
    rewrite StmtQueryContext_cases, safe_label_cases. cbn.
    rewrite decide_True by done.
    rewrite (Hpres (instCount w + 1)) by (cbn; lia). cbn [w1 dbToWriter].
    by rewrite lookup_insert_eq.
  - intros ctx w Hv. rewrite StmtQueryContext_cases, safe_label_cases, Hv. done.
  - intros ctx tok w Hv Hreg label. split; [apply no_writer_label_nonempty|].
    rewrite StmtQueryContext_cases, safe_label_cases, Hv, Hreg. done.
Qed.

Lemma query_label_resolution_witness :
  let E := example_env true in
  let roomserver := {| Safe := "roomserver" |} in
  let q := "SELECT * FROM t" in
  ∃ db ctx w1,
    OpenWithWriter E postgres_options (Some roomserver) init = (Done (inl (db, ctx)), w1) ∧
    let w2 := run E [(sqlite_options, Some {| Safe := "syncapi" |})] w1 in
    StmtQueryContext E 3 ctx (λ _ _, (tt, None)) q [] w2 =
    (Done (tt, None), logged w2 [trace_line E 3 None "roomserver" q []]).
Proof.
  intros E roomserver q.
  destruct (OpenWithWriter E postgres_options (Some roomserver) init)
    as [[[[db ctx]|err]|r] w1] eqn:Hcall.
  - exists db, ctx, w1. split; [reflexivity|].
    refine (proj1 (proj2 (query_label_resolution E 3 (λ _ _, (tt, None)) q []))
              postgres_options roomserver init db ctx w1 _ _ _ Hcall).
    + by vm_compute.
    + by vm_compute.
  - vm_compute in Hcall. discriminate Hcall.
  - vm_compute in Hcall. discriminate Hcall.
Defined.

Lemma append_assoc (s t u : string) : (s +:+ t) +:+ u = s +:+ t +:+ u.
Proof.
  induction s as [|c s IH]; [done|].
  change (String c ((s +:+ t) +:+ u) = String c (s +:+ t +:+ u)). by rewrite IH.
Qed.

Lemma append_nil_r (s : string) : s +:+ "" = s.
Proof.
  induction s as [|c s IH]; [done|].
  change (String c (s +:+ "") = String c s). by rewrite IH.
Qed.

(** The loop of [RowsNext] writes the quoted values with [ | ] between
    them and none after the last. *)
Lemma write_values_Join E (vals : list any) (n i : Z) (b : string) :
  n = i + Z.of_nat (length vals) →
  write_values E n i vals b = b +:+ Join (fmt_q E <$> vals) " | ".
Proof.
  revert i b. induction vals as [|v vals IH]; intros i b Hn.
  - cbn. by rewrite append_nil_r.
  - cbn [write_values]. rewrite IH by (cbn [length] in Hn; lia).
    destruct vals as [|v' vals].
    + cbn [length] in Hn. rewrite (proj2 (Z.leb_gt _ _)) by lia.
      cbn. by rewrite append_nil_r.
    + cbn [length] in Hn. rewrite (proj2 (Z.leb_le _ _)) by lia.
      cbn [fmap list_fmap Join]. by rewrite !append_assoc.
Qed.

(** C7. A [RowsNext] call whose underlying fetch returns [io.EOF] emits
    nothing; every other call emits two lines, the column names joined by
    [ | ] and then the quoted values of the destination, joined the same way.
    In both cases it returns what the fetch returned. *)
Theorem RowsNext_logging {R : Type} E (ops : RowsOps R) (rows : R) (dest : list any)
    (w : World) :
  let fetched := Next ops rows dest in
  let err := fetched.2 in
  RowsNext E ops rows dest w =
  (Done fetched,
   logged w (if bool_decide (err = Some io_EOF) then []
             else [debug_line (Join (Columns ops fetched.1.1) " | ");
                   debug_line (Join (fmt_q E <$> fetched.1.2) " | ")])).
Proof.
  intros fetched err. subst err. unfold RowsNext. fold fetched.
  destruct fetched as [[rows' dest'] err]. cbn [fst snd].
  case_bool_decide.
  - run_M. by rewrite logged_nil.
  - run_M. rewrite logged_logged.
    by rewrite (write_values_Join E dest' _ 0 "").
Qed.

(** Fetching a one-row result set twice: the first call logs the row, the
    second, which hits [io.EOF] with the row still in the destination, logs
    nothing. *)
Example RowsNext_one_row :
  let E := example_env true in
  let rs := (["id"; "name"], [[AInt 1; AString "alice"]]) in
  let first := RowsNext E slice_rows rs [ANil; ANil] init in
  emitted (RowsNext E slice_rows rs [ANil; ANil]) init =
    [debug_line "id | name"; debug_line "1 | 'alice'"] ∧
  first.1 = Done (["id"; "name"], [], [AInt 1; AString "alice"], None) ∧
  RowsNext E slice_rows (["id"; "name"], []) [AInt 1; AString "alice"] first.2 =
    (Done (["id"; "name"], [], [AInt 1; AString "alice"], Some io_EOF), first.2).
Proof. by vm_compute. Qed.

(** C8. For a context that holds no token or a string token, the three
    interceptor methods return exactly what the call they delegate to
    returned, rows or result and error alike, and leave the counter and the
    registry as they were: all they add is lines in the sink. *)
Theorem interceptor_returns_delegate_result {R1 R2 R3 : Type} E (el : Z) (ctx : Context)
    (query : Context → list NamedValue → R1 * option error)
    (exec : Context → list NamedValue → R2 * option error)
    (ops : RowsOps R3) (rows : R3) (dest : list any)
    (q : string) (args : list NamedValue) (w : World) :
  token_or_none ctx = true →
  (∃ es, StmtQueryContext E el ctx query q args w = (Done (query ctx args), logged w es)) ∧
  (∃ es, StmtExecContext E el ctx exec q args w = (Done (exec ctx args), logged w es)) ∧
  (∃ es, RowsNext E ops rows dest w = (Done (Next ops rows dest), logged w es)).
Proof.
  intros Htok. unfold token_or_none in Htok.
  rewrite StmtQueryContext_cases, StmtExecContext_cases, safe_label_cases. cbn [fst].
  split; [|split].
  - destruct (Value ctx _); try done; by eexists.
  - destruct (Value ctx _); try done; by eexists.
  - unfold RowsNext. destruct (Next ops rows dest) as [[rows' dest'] err].
    case_bool_decide; run_M.
    + exists []. by rewrite logged_nil.
    + eexists. by rewrite logged_logged.
Qed.

Lemma interceptor_returns_delegate_result_witness :
  let E := example_env true in
  let ctx := context_WithValue context_TODO (AString CtxDBInstance) (AString "1") in
  let failing := λ (_ : Context) (_ : list NamedValue),
                   (tt, Some (errorString "pq: relation does not exist")) in
  ∃ es, StmtExecContext E 12 ctx failing "INSERT INTO t VALUES (1)" [] init =
        (Done (tt, Some (errorString "pq: relation does not exist")), logged init es).
Proof.
  intros E ctx failing.
  exact (proj1 (proj2 (interceptor_returns_delegate_result E 12 ctx
                         (λ _ _, ((), None)) failing slice_rows ([], []) []
                         "INSERT INTO t VALUES (1)" [] init eq_refl))).
Defined.

(** The unchecked assertion [key.(string)]: a context holding something else
    than a string under the token key makes the method panic after the
    delegate ran. *)
Example StmtQueryContext_panics :
  let ctx := context_WithValue context_TODO (AString CtxDBInstance) (AInt 1) in
  (StmtQueryContext (example_env true) 0 ctx (λ _ _, (tt, None)) "SELECT 1" [] init).1 =
  Panic "interface conversion: interface {} is not string".
Proof. by vm_compute. Qed.

(** With anything else than a string under the token key, both statement
    methods panic once the delegate has returned: what it returned is lost,
    nothing is logged and the state is as it was. *)
Lemma Stmt_panics_on_other_value {R : Type} E (el : Z) (ctx : Context)
    (stmt : Context → list NamedValue → R * option error)
    (q : string) (args : list NamedValue) (w : World) :
  token_or_none ctx = false →
  StmtQueryContext E el ctx stmt q args w =
    (Panic "interface conversion: interface {} is not string", w) ∧
  StmtExecContext E el ctx stmt q args w =
    (Panic "interface conversion: interface {} is not string", w).
Proof.
  intros Htok. unfold token_or_none in Htok.
  rewrite StmtQueryContext_cases, StmtExecContext_cases, safe_label_cases. cbn [fst].
  by destruct (Value ctx _).
Qed.

(** C8 as the specification words it fails: the delegate fails with an error,
    the context holds a number under the token key, and [StmtExecContext]
    panics instead of returning that error. *)
Lemma interceptor_loses_result_on_panic :
  let ctx := context_WithValue context_TODO (AString CtxDBInstance) (AInt 1) in
  let stmt := λ (_ : Context) (_ : list NamedValue),
                (tt, Some (errorString "pq: relation does not exist")) in
  let out := (StmtExecContext (example_env true) 12 ctx stmt
                "INSERT INTO t VALUES (1)" [] init).1 in
  out = Panic "interface conversion: interface {} is not string" ∧
  out ≠ Done (stmt ctx []).
Proof. intros ctx stmt out. split; [by vm_compute|]. by vm_compute. Qed.

End SqlutilProps.

Module HooksMore.
Import Hooks HooksProps.

Lemma foldl_traced {W : Type} (call : callback → any → State * W → State * W)
    (p : any) (cbs : list callback) s (w : W) tr :
  let r := foldl (λ sw cb, traced call cb p sw) (s, (w, tr)) cbs in
  (r.1, r.2.1) = foldl (λ sw cb, call cb p sw) (s, w) cbs ∧
  r.2.2 = tr ++ ((λ cb, (cb, p)) <$> cbs).
Proof.
  revert s w tr. induction cbs as [|cb cbs IH]; intros s w tr.
  - cbn. by rewrite app_nil_r.
  - cbn [foldl fmap list_fmap].
    assert (traced call cb p (s, (w, tr)) =
            ((call cb p (s, w)).1, ((call cb p (s, w)).2, tr ++ [(cb, p)]))) as ->.
    { unfold traced. cbn [fst snd]. by destruct (call cb p (s, w)). }
    destruct (call cb p (s, w)) as [s1 w1]. cbn [fst snd].
    destruct (IH s1 w1 (tr ++ [(cb, p)])) as [H1 H2]. cbn zeta in H1, H2.
    split; [done|]. rewrite H2. by rewrite <- app_assoc.
Qed.


(** A callback that attaches itself again while [Run] iterates is not called
    a second time by that [Run]; the next [Run] calls it twice. *)
Example Run_reattaching :
  let K := KindNewEvent in
  let X := AString "X" in
  let s0 := Attach K 5%nat (Enable init) in
  let r1 := Run (traced (reattaching K)) K X (s0, (tt, [])) in
  let r2 := Run (traced (reattaching K)) K X (r1.1, (tt, [])) in
  r1.2.2 = [(5%nat, X)] ∧ callbacks K r1.1 = [5%nat; 5%nat] ∧
  r2.2.2 = [(5%nat, X); (5%nat, X)] ∧ length (callbacks K r2.1) = 4%nat.
Proof. by vm_compute. Qed.

(** X2. With callbacks that leave the package alone, no history of calls
    disables hooks again once they are enabled, and none removes or reorders
    what is attached under a kind: the old list stays a prefix of the new. *)
Theorem hook_table_only_grows {W : Type}
    (call : callback → any → State * W → State * W)
    (ops : list op) (K : string) (s : State) (w : W) :
  frame call →
  let s' := (exec call ops (s, w)).1 in
  (enabled s = true → enabled s' = true) ∧
  callbacks K s `prefix_of` callbacks K s'.
Proof.
  intros Hf s'. destruct (exec_table call Hf K ops s w) as [He Hc].
  fold s' in He, Hc. split.
  - intros Hs. by rewrite He, Hs.
  - rewrite Hc. by apply prefix_app_r.
Qed.

Lemma hook_table_only_grows_witness :
  let ops := [OpAttach KindNewEvent 2%nat; OpRun KindNewEvent (AString "X");
              OpAttach "other" 3%nat] in
  let s := Attach KindNewEvent 1%nat (Enable init) in
  let s' := (exec recorder ops (s, [])).1 in
  (enabled s = true → enabled s' = true) ∧
  callbacks KindNewEvent s `prefix_of` callbacks KindNewEvent s'.
Proof.
  intros ops s.
  exact (hook_table_only_grows recorder ops KindNewEvent s [] recorder_frame).
Defined.

(** X3. A kind under which no [Attach] took effect, because none was made
    or because hooks were not enabled then, is never triggered: [Run] on it
    is a no-op, whatever is attached under other kinds. *)
Theorem Run_unattached_kind {W : Type}
    (call : callback → any → State * W → State * W)
    (ops : list op) (K : string) (p : any) (w : W) :
  frame call →
  attached_under K false ops = [] →
  Run call K p (exec call ops (init, w)) = exec call ops (init, w).
Proof.
  intros Hf Hno. destruct (exec_table call Hf K ops init w) as [_ Hc].
  cbn zeta in Hc. change (enabled init) with false in Hc. rewrite Hno in Hc.
  assert (callbacks K init = []) as Hi.
  { unfold callbacks, init. cbn [hookMap]. by rewrite lookup_empty. }
  rewrite Hi in Hc. cbn [app] in Hc.
  unfold Run. destruct (negb _); [done|]. by rewrite Hc.
Qed.

Lemma Run_unattached_kind_witness :
  let ops := [OpAttach "msc2946" 1%nat; OpEnable; OpAttach KindNewEvent 2%nat] in
  Run recorder "msc2946" (AString "X") (exec recorder ops (init, []))
  = exec recorder ops (init, []).
Proof.
  intros ops.
  exact (Run_unattached_kind recorder ops "msc2946" (AString "X") []
           recorder_frame eq_refl).
Defined.

End HooksMore.

Module SqlutilMore.
Import Sqlutil SqlutilProps.

(** The Debug line of lines 148 to 153. *)
Lemma open_driver_shape E o driverName dsn :
  let name := driver_variant E driverName in
  ∃ r es, (∀ w, open_driver E o driverName dsn w = (Done r, logged w es)) ∧
    match sql_Open E name dsn with
    | Some err => r = inr err ∧ es = []
    | None =>
      r = inl {| db_driver := name; db_dsn := dsn;
                 db_pool := if bool_decide (name = SQLiteDriverName E)
                            then [] else pool_calls o |} ∧
      entry_msg <$> es = (if bool_decide (name = SQLiteDriverName E)
                          then [] else ["Setting DB connection limits"])
    end.
Proof.
  intros name. unfold driver_variant in name.
  destruct (sql_Open E name dsn) as [err|] eqn:Hs.
  - exists (inr err), []. split; [|by split].
    intros w. rewrite open_driver_cases. fold name. rewrite Hs. by rewrite logged_nil.
  - destruct (bool_decide (name = SQLiteDriverName E)) eqn:Hd.
    + eexists (inl _), []. split; [|by split].
      intros w. rewrite open_driver_cases. fold name. rewrite Hs, Hd.
      by rewrite logged_nil.
    + eexists (inl _), [_]. split; [|split; [reflexivity|]].
      * intros w. rewrite open_driver_cases. fold name. by rewrite Hs, Hd.
      * reflexivity.
Qed.

Lemma Open_uniform E o : ∃ r es, ∀ w, Open E o w = (Done r, logged w es).
Proof.
  unfold Open. destruct (IsSQLite E _).
  - destruct (ParseFileURI E _) as [dsn|err].
    + destruct (open_driver_shape E o (SQLiteDriverName E) dsn) as (r & es & H & _).
      by exists r, es.
    + eexists (inr _), []. intros w'. by rewrite logged_nil.
  - destruct (IsPostgres E _).
    + destruct (open_driver_shape E o "postgres" (ConnectionString o))
        as (r & es & H & _).
      by exists r, es.
    + eexists (inr _), []. intros w'. by rewrite logged_nil.
Qed.

(** X5. The handle of a successful [Open] was accepted by [sql.Open] under
    the driver name and data source it carries. A SQLite descriptor (the
    classifier tried first) is opened on the path [ParseFileURI] made of it,
    with the SQLite driver; any other successful descriptor is a Postgres
    one, opened verbatim with the [postgres] driver. With the trace switch on
    the driver name carries the [-trace] suffix. *)
Theorem Open_success_handle E (o : DatabaseOptions) (w w' : World) (db : DB) :
  Open E o w = (Done (inl db), w') →
  let cs := ConnectionString o in
  sql_Open E (db_driver db) (db_dsn db) = None ∧
  if IsSQLite E cs
  then ParseFileURI E cs = inl (db_dsn db) ∧
       db_driver db = driver_variant E (SQLiteDriverName E)
  else IsPostgres E cs = true ∧ db_dsn db = cs ∧
       db_driver db = driver_variant E "postgres".
Proof.
  intros H cs. subst cs. unfold Open in H.
  destruct (IsSQLite E _).
  - destruct (ParseFileURI E _) as [dsn|err]; [|done].
    destruct (open_driver_shape E o (SQLiteDriverName E) dsn) as (r & es & Ho & Hr).
    rewrite Ho in H. injection H as -> _.
    destruct (sql_Open E _ dsn) eqn:Hs; destruct Hr as [[= ->] _]. by cbn.
  - destruct (IsPostgres E _); [|done].
    destruct (open_driver_shape E o "postgres" (ConnectionString o))
      as (r & es & Ho & Hr).
    rewrite Ho in H. injection H as -> _.
    destruct (sql_Open E _ (ConnectionString o)) eqn:Hs; destruct Hr as [[= ->] _].
    by cbn.
Qed.

Lemma Open_success_handle_witness :
  ∃ db w',
    Open (example_env true) postgres_options init = (Done (inl db), w') ∧
    db_dsn db = "postgres://dendrite@localhost/dendrite" ∧
    db_driver db = "postgres-trace".
Proof.
  destruct (Open (example_env true) postgres_options init) as [[[db|err]|r] w'] eqn:H.
  - exists db, w'. split; [reflexivity|].
    exact (proj2 (proj2 (Open_success_handle (example_env true) postgres_options
                           init w' db H))).
  - vm_compute in H. discriminate H.
  - vm_compute in H. discriminate H.
Defined.

(** X6. An error of [Open] is one of three, and the state is untouched: the
    error of [ParseFileURI] wrapped behind the prefix [ParseFileURI: ], from
    which [errors.Unwrap] gives it back; the error of [sql.Open], as it is;
    or [invalid database connection string] for a descriptor neither
    classifier accepts. *)
Theorem Open_failure_error E (o : DatabaseOptions) (w w' : World) (err : error) :
  Open E o w = (Done (inr err), w') →
  let cs := ConnectionString o in
  w' = w ∧
  ((IsSQLite E cs = true ∧
    ∃ inner, ParseFileURI E cs = inr inner ∧
             Error err = "ParseFileURI: " +:+ Error inner ∧
             Unwrap err = Some inner) ∨
   (∃ driverName dsn, sql_Open E driverName dsn = Some err) ∨
   (IsSQLite E cs = false ∧ IsPostgres E cs = false ∧
    err = errorString ("invalid database connection string " +:+
                       fmt_q E (AString cs)))).
Proof.
  intros H cs. subst cs. unfold Open in H.
  destruct (IsSQLite E _) eqn:Hq.
  - destruct (ParseFileURI E _) as [dsn|inner] eqn:Hp.
    + destruct (open_driver_shape E o (SQLiteDriverName E) dsn) as (r & es & Ho & Hr).
      rewrite Ho in H. injection H as -> <-.
      destruct (sql_Open E _ dsn) eqn:Hs.
      * destruct Hr as [[= ->] ->]. rewrite logged_nil. split; [done|].
        right. left. eauto.
      * by destruct Hr as [[=] _].
    + injection H as <- <-. split; [done|]. left. split; [done|]. by exists inner.
  - destruct (IsPostgres E _) eqn:Hg.
    + destruct (open_driver_shape E o "postgres" (ConnectionString o))
        as (r & es & Ho & Hr).
      rewrite Ho in H. injection H as -> <-.
      destruct (sql_Open E _ (ConnectionString o)) eqn:Hs.
      * destruct Hr as [[= ->] ->]. rewrite logged_nil. split; [done|].
        right. left. eauto.
      * by destruct Hr as [[=] _].
    + injection H as <- <-. split; [done|]. right. right. done.
Qed.

Lemma Open_failure_error_witness :
  ∃ inner,
    Open (mkEnv false (λ _, true) (λ _, false) "sqlite3"
            (λ _, inr (errorString "missing file name"))
            (λ _ _, None) (λ dsn, dsn) example_q (λ _, ""))
         sqlite_options init
    = (Done (inr (wrapError ("ParseFileURI: " +:+ Error inner) inner)), init).
Proof.
  set (E := mkEnv _ _ _ _ _ _ _ _ _).
  destruct (Open E sqlite_options init) as [[[db|err]|r] w'] eqn:H.
  - vm_compute in H. discriminate H.
  - destruct (Open_failure_error E sqlite_options init w' err H)
      as [-> [(_ & inner & Hp & _ & _)|[(name & dsn & Hs)|(Hq & _)]]].
    + exists inner. vm_compute in Hp. injection Hp as <-.
      vm_compute in H. injection H as <-. reflexivity.
    + vm_compute in Hs. discriminate Hs.
    + vm_compute in Hq. discriminate Hq.
  - vm_compute in H. discriminate H.
Defined.

(** X7. Whether [Open] sets the pool limits is decided by the driver name
    the handle was opened under, compared with [SQLiteDriverName()]: equal,
    no setter is called and nothing is logged; different, the three setters
    are called with the three values of the options, max-open, max-idle and
    lifetime in this order, after the line [Setting DB connection limits]. *)
Theorem Open_pool_follows_driver_name E (o : DatabaseOptions) (w w' : World) (db : DB) :
  Open E o w = (Done (inl db), w') →
  let sqlite := bool_decide (db_driver db = SQLiteDriverName E) in
  db_pool db = (if sqlite then [] else pool_calls o) ∧
  entry_msg <$> emitted (Open E o) w =
    (if sqlite then [] else ["Setting DB connection limits"]).
Proof.
  assert (∀ driverName dsn,
            open_driver E o driverName dsn w = (Done (inl db), w') →
            db_pool db = (if bool_decide (db_driver db = SQLiteDriverName E)
                          then [] else pool_calls o) ∧
            entry_msg <$> emitted (open_driver E o driverName dsn) w =
              (if bool_decide (db_driver db = SQLiteDriverName E)
               then [] else ["Setting DB connection limits"])) as Hd.
  { intros driverName dsn H.
    destruct (open_driver_shape E o driverName dsn) as (r & es & Ho & Hr).
    rewrite (emitted_logged _ _ _ _ (Ho w)).
    rewrite Ho in H. injection H as -> _.
    destruct (sql_Open E _ dsn); destruct Hr as [[= ->] Hes]. by cbn. }
  intros H sqlite. subst sqlite. unfold Open in H. revert H.
  unfold emitted, Open.
  destruct (IsSQLite E _).
  - destruct (ParseFileURI E _) as [dsn|err]; [|done]. apply Hd.
  - destruct (IsPostgres E _); [|done]. apply Hd.
Qed.

Lemma Open_pool_follows_driver_name_witness :
  ∃ db w',
    Open (example_env false) postgres_options init = (Done (inl db), w') ∧
    db_pool db = [SetMaxOpenConns 100; SetMaxIdleConns 5; SetConnMaxLifetime (-1)] ∧
    entry_msg <$> emitted (Open (example_env false) postgres_options) init =
      ["Setting DB connection limits"].
Proof.
  destruct (Open (example_env false) postgres_options init) as [[[db|err]|r] w'] eqn:H.
  - exists db, w'. split; [reflexivity|].
    pose proof (Open_pool_follows_driver_name (example_env false) postgres_options
                  init w' db H) as Hp.
    cbn zeta in Hp. vm_compute in H. injection H as <- <-. exact Hp.
  - vm_compute in H. discriminate H.
  - vm_compute in H. discriminate H.
Defined.

(** X8. A statement execution whose context holds no token or a string
    token always ends its logging with one trace entry, which carries the
    measured duration, the error of the delegate, the label resolved and the
    statement; at most one line, the audit, comes before it, and none when
    the statement begins with [SELECT ]. Both methods log the same. *)
Theorem statement_always_traced {R : Type} E (el : Z) (ctx : Context)
    (stmt : Context → list NamedValue → R * option error)
    (q : string) (args : list NamedValue) (w : World) :
  token_or_none ctx = true →
  let lines := emitted (StmtQueryContext E el ctx stmt q args) w in
  ∃ label,
    (safe_label ctx w).1 = Done label ∧
    last lines = Some (trace_line E el (stmt ctx args).2 label q args) ∧
    (lines = [trace_line E el (stmt ctx args).2 label q args] ∨
     lines = [audit_line label q; trace_line E el (stmt ctx args).2 label q args]) ∧
    (HasPrefix q "SELECT " = true →
     lines = [trace_line E el (stmt ctx args).2 label q args]) ∧
    emitted (StmtExecContext E el ctx stmt q args) w = lines.
Proof.
  intros Htok lines. subst lines. unfold token_or_none in Htok.
  pose proof (StmtQueryContext_cases E el ctx stmt q args w) as Hq.
  pose proof (StmtExecContext_cases E el ctx stmt q args w) as He.
  rewrite safe_label_cases in *. cbn [fst] in *.
  assert (∃ label,
            match Value ctx (AString CtxDBInstance) with
            | ANil => Done ""
            | AString k =>
              Done match default None (dbToWriter w !! k) with
                   | Some W => Safe W
                   | None => "no writer for key " +:+ k
                   end
            | _ => Panic "interface conversion: interface {} is not string"
            end = Done label) as [label Hl].
  { destruct (Value ctx _); try done; by eexists. }
  rewrite Hl in Hq, He. exists label. split; [done|].
  rewrite (emitted_logged _ _ _ _ Hq), (emitted_logged _ _ _ _ He).
  unfold stmt_lines.
  destruct (HasPrefix q "SELECT "); destruct (bool_decide (label = "")); cbn;
    repeat split; auto; done.
Qed.

Lemma statement_always_traced_witness :
  let E := example_env true in
  let ctx := context_WithValue context_TODO (AString CtxDBInstance) (AString "9") in
  let q := "DELETE FROM t" in
  let stmt := λ (_ : Context) (_ : list NamedValue), (tt, Some io_EOF) in
  let lines := emitted (StmtQueryContext E 4 ctx stmt q []) init in
  ∃ label,
    (safe_label ctx init).1 = Done label ∧
    last lines = Some (trace_line E 4 (Some io_EOF) label q []) ∧
    (lines = [trace_line E 4 (Some io_EOF) label q []] ∨
     lines = [audit_line label q; trace_line E 4 (Some io_EOF) label q []]) ∧
    (HasPrefix q "SELECT " = true → lines = [trace_line E 4 (Some io_EOF) label q []]) ∧
    emitted (StmtExecContext E 4 ctx stmt q []) init = lines.
Proof.
  intros E ctx q stmt.
  exact (statement_always_traced E 4 ctx stmt q [] init eq_refl).
Defined.

(** [RowsNext] on a result set held in memory that has a row left. *)
Lemma RowsNext_slice_row E cols row rest dest w :
  RowsNext E slice_rows (cols, row :: rest) dest w =
  (Done ((cols, rest), row, None), logged w (row_lines E cols row)).
Proof.
  unfold RowsNext, row_lines. cbn [slice_rows Next Columns fst snd].
  rewrite bool_decide_eq_false_2 by done. run_M. rewrite logged_logged.
  by rewrite (write_values_Join E row _ 0 "").
Qed.

(** [RowsNext] on one that has none. *)
Lemma RowsNext_slice_end E cols dest w :
  RowsNext E slice_rows (cols, []) dest w = (Done ((cols, []), dest, Some io_EOF), w).
Proof.
  unfold RowsNext. cbn [slice_rows Next Columns fst snd].
  rewrite bool_decide_eq_true_2 by done. by run_M.
Qed.

(** X9. Iterating a result set of [n] rows through the interceptor until
    [Next] fails takes [n + 1] calls, ends on [io.EOF], and logs each row
    exactly once and in order: the column line, then the row's values. The
    last call, which finds the last row still in the destination, adds
    nothing. *)
Theorem drain_logs_each_row_once E (cols : list string) (rs : list (list any))
    (dest : list any) (fuel : nat) (w : World) :
  (length rs < fuel)%nat →
  drain E slice_rows fuel (cols, rs) dest w =
  (Done (Some io_EOF), logged w (concat (row_lines E cols <$> rs))).
Proof.
  revert fuel dest w. induction rs as [|row rs IH]; intros fuel dest w Hf.
  - destruct fuel as [|fuel]; [cbn in Hf; lia|].
    cbn [drain]. unfold mbind, M_bind, bind. rewrite RowsNext_slice_end.
    cbn. by rewrite logged_nil.
  - destruct fuel as [|fuel]; [cbn in Hf; lia|].
    cbn [drain]. unfold mbind, M_bind, bind. rewrite RowsNext_slice_row.
    cbn [length] in Hf. rewrite IH by lia.
    cbn [fmap list_fmap concat]. by rewrite logged_logged.
Qed.

Lemma drain_logs_each_row_once_witness :
  let E := example_env true in
  let rs := [[AInt 1; AString "alice"]; [AInt 2; AString "bob"]] in
  drain E slice_rows 3 (["id"; "name"], rs) [ANil; ANil] init =
  (Done (Some io_EOF),
   logged init [debug_line "id | name"; debug_line "1 | 'alice'";
                debug_line "id | name"; debug_line "2 | 'bob'"]).
Proof.
  intros E rs.
  rewrite (drain_logs_each_row_once E ["id"; "name"] rs [ANil; ANil] 3 init);
    [|cbn; lia].
  vm_compute. reflexivity.
Defined.

Lemma tokens_dense_init : tokens_dense init.
Proof.
  unfold tokens_dense, init, int_max. cbn. split; [lia|]. split; [|done].
  intros k. rewrite lookup_empty. split.
  - by intros [? ?].
  - intros (n & Hn & _). lia.
Qed.

Lemma opens_at E o w :
  opens E o = match (Open E o w).1 with Done (inl _) => true | _ => false end.
Proof.
  unfold opens. destruct (Open_uniform E o) as (r & es & H). by rewrite !H.
Qed.

(** One call below the top of the counter range keeps the registry dense and
    moves the counter by one exactly when [Open] succeeds. *)
Lemma OpenWithWriter_dense E o wr w :
  tokens_dense w → instCount w < int_max →
  let w' := (OpenWithWriter E o wr w).2 in
  tokens_dense w' ∧
  instCount w' = instCount w + (if opens E o then 1 else 0).
Proof.
  intros (Hr & Hk & Hsz) Hhi. rewrite (opens_at E o w), OpenWithWriter_cases.
  destruct (Open_uniform E o) as (r & es & H). rewrite H.
  destruct r as [db|err]; cbn [fst snd];
    [|split; [exact (conj Hr (conj Hk Hsz)) | cbn; lia]].
  cbn [logged instCount dbToWriter sink].
  rewrite int_wrap_succ by (unfold int_min; lia).
  assert (dbToWriter w !! pretty (instCount w + 1) = None) as Hfresh.
  { destruct (dbToWriter w !! pretty (instCount w + 1)) eqn:Hl; [|done].
    destruct (proj1 (Hk (pretty (instCount w + 1)))) as (n & Hn & Heq); [by eexists|].
    apply (inj pretty) in Heq. lia. }
  split; [|done]. unfold tokens_dense. cbn [instCount dbToWriter logged].
  split; [lia|]. split.
  - intros k. rewrite lookup_insert_is_Some, Hk. split.
    + intros [<-|[_ (n & Hn & ->)]].
      * exists (instCount w + 1). split; [lia|done].
      * exists n. split; [lia|done].
    + intros (n & Hn & ->).
      destruct (decide (n = instCount w + 1)) as [->|Hne]; [by left|].
      right. split; [by intros ?%(inj pretty)|]. exists n. split; [lia|done].
  - rewrite map_size_insert_None by done. lia.
Qed.

Lemma run_dense E calls w :
  tokens_dense w →
  instCount w + Z.of_nat (length calls) ≤ int_max →
  tokens_dense (run E calls w) ∧
  instCount (run E calls w) = instCount w + Z.of_nat (successes E calls).
Proof.
  revert w. induction calls as [|[o wr] calls IH]; intros w Hd Hhi.
  - unfold successes. cbn. split; [done|lia].
  - cbn [length] in Hhi. unfold run. cbn [foldl fst snd].
    destruct (OpenWithWriter_dense E o wr w) as [Hd' Hc]; [done|lia|].
    cbn zeta in Hd', Hc.
    destruct (IH (OpenWithWriter E o wr w).2) as [Hd2 Hc2]; [done| |].
    { rewrite Hc. destruct (opens E o); lia. }
    unfold run in Hd2, Hc2. split; [done|]. rewrite Hc2, Hc.
    unfold successes. cbn [List.filter fst]. destruct (opens E o); cbn [length]; lia.
Qed.

(** X10. After any sequence of fewer than [2^63] [OpenWithWriter] calls made
    from the initial state, the counter is the number of calls that got a
    handle, the registry holds that many entries, and its tokens are exactly
    the decimal renderings of [1] up to that number: a failed open uses up no
    token, and no entry is ever written twice. *)
Theorem registry_counts_successes E (calls : list (DatabaseOptions * option Writer)) :
  Z.of_nat (length calls) ≤ int_max →
  let w := run E calls init in
  let n := successes E calls in
  instCount w = Z.of_nat n ∧
  size (dbToWriter w) = n ∧
  ∀ k, is_Some (dbToWriter w !! k) ↔ ∃ i, (1 ≤ i ≤ n)%nat ∧ k = pretty (Z.of_nat i).
Proof.
  intros Hlen w n.
  destruct (run_dense E calls init tokens_dense_init) as [(Hr & Hk & Hsz) Hc];
    [cbn; lia|].
  fold w in Hr, Hk, Hsz, Hc. fold n in Hc. cbn in Hc.
  split; [done|]. split; [lia|].
  intros k. rewrite Hk. split.
  - intros (i & Hi & ->). exists (Z.to_nat i). split; [lia|]. f_equal. lia.
  - intros (i & Hi & ->). exists (Z.of_nat i). split; [lia|done].
Qed.

Lemma registry_counts_successes_witness :
  let E := example_env false in
  let W := Some {| Safe := "roomserver" |} in
  let calls := [(postgres_options, W); (other_options, W); (sqlite_options, None)] in
  let w := run E calls init in
  instCount w = 2 ∧ size (dbToWriter w) = 2%nat ∧
  ∀ k, is_Some (dbToWriter w !! k) ↔ ∃ i, (1 ≤ i ≤ 2)%nat ∧ k = pretty (Z.of_nat i).
Proof.
  intros E W calls.
  refine (registry_counts_successes E calls _). unfold int_max. cbn. lia.
Defined.

End SqlutilMore.

Module Msc2836TestProps.
Import Msc2836Test.

(** X11. [QueryEventsByID] appends to the response, in the order of the
    request, the event of every requested ID the double holds: an ID it does
    not hold (or holds a nil pointer for) is skipped without an error, an ID
    requested twice is answered twice, and what the response held before
    stays in front. *)
Theorem QueryEventsByID_appends_found {Ev : Type} (r : testRoomserverAPI Ev)
    (ids : list string) (old : list Ev) :
  let found := omap (λ id, default None (events r !! id)) ids in
  QueryEventsByID r ids old = (old ++ found, None) ∧
  (length found ≤ length ids)%nat ∧
  ∀ ev, ev ∈ found ↔ ∃ id, id ∈ ids ∧ events r !! id = Some (Some ev).
Proof.
  intros found. subst found. split; [|split].
  - unfold QueryEventsByID. f_equal.
    revert old. induction ids as [|id ids IH]; intros old.
    + cbn. by rewrite app_nil_r.
    + cbn [foldl omap list_omap]. rewrite IH.
      destruct (default None (events r !! id)) as [ev|]; [|done].
      by rewrite <- app_assoc.
  - induction ids as [|id ids IH]; [done|].
    cbn [omap list_omap length]. destruct (default None _); cbn [length]; lia.
  - intros ev. rewrite list_elem_of_omap. split.
    + intros (id & Hin & Hl). exists id. split; [done|].
      destruct (events r !! id) as [[e|]|]; cbn in Hl; by simplify_eq.
    + intros (id & Hin & Hl). exists id. split; [done|]. by rewrite Hl.
Qed.

(** X12. [QueryMembershipForUser] reports the user as joined exactly when
    the requested room is in that user's list: then the three fields read
    in-room, has-been-in-room and [join]; in every other case, a user the
    double does not know included, the response is left as it was. No error
    is returned either way. *)
Theorem QueryMembershipForUser_joined_iff {Ev : Type} (r : testRoomserverAPI Ev)
    (user room : string) (res : MembershipResponse) :
  QueryMembershipForUser r user room res =
  (if bool_decide (room ∈ default [] (userToJoinedRooms r !! user))
   then {| IsInRoom := true; HasBeenInRoom := true; Membership := "join" |}
   else res,
   None).
Proof.
  unfold QueryMembershipForUser. f_equal.
  induction (default [] (userToJoinedRooms r !! user)) as [|roomID rooms IH].
  - done.
  - cbn [membership_loop]. destruct (decide (roomID = room)) as [->|Hne].
    + rewrite bool_decide_eq_true_2; [done|]. by left.
    + rewrite IH, (bool_decide_ext (room ∈ roomID :: rooms) (room ∈ rooms)); [done|].
      rewrite elem_of_cons. split; [intros [?|?]; [congruence|done] | by right].
Qed.

Lemma traced_frame {W : Type}
    (call : Hooks.callback → any → Hooks.State * W → Hooks.State * W) :
  Hooks.frame call → Hooks.frame (Hooks.traced call).
Proof.
  intros Hf cb d s [w tr]. unfold Hooks.traced. cbn [fst snd].
  specialize (Hf cb d s w). by destruct (call cb d (s, w)).
Qed.

(** X14. The injection loop of the test, with callbacks that leave the hook
    package alone: once hooks are enabled every callback attached under
    [new_event] is called once for each injected event, all callbacks for the
    first event before any for the second; while hooks are disabled the loop
    calls nothing. The hook table is the same after the loop. *)
Theorem inject_runs_calls_per_event {W : Type}
    (call : Hooks.callback → any → Hooks.State * W → Hooks.State * W)
    (evs : list any) (s : Hooks.State) (w : W) (tr : list (Hooks.callback * any)) :
  Hooks.frame call →
  let r := inject_runs (Hooks.traced call) evs (s, (w, tr)) in
  r.1 = s ∧
  r.2.2 = tr ++ (if Hooks.enabled s
                 then concat ((λ ev, (λ cb, (cb, ev)) <$>
                                 Hooks.callbacks Hooks.KindNewEvent s) <$> evs)
                 else []).
Proof.
  intros Hf r. subst r. revert w tr.
  induction evs as [|ev evs IH]; intros w tr.
  - cbn. split; [done|]. destruct (Hooks.enabled s); by rewrite app_nil_r.
  - unfold inject_runs. cbn [foldl].
    pose proof (HooksProps.Run_frame (Hooks.traced call) (traced_frame call Hf)
                  Hooks.KindNewEvent ev s (w, tr)) as Hs.
    assert ((Hooks.Run (Hooks.traced call) Hooks.KindNewEvent ev (s, (w, tr))).2.2 =
            tr ++ (if Hooks.enabled s
                   then (λ cb, (cb, ev)) <$> Hooks.callbacks Hooks.KindNewEvent s
                   else [])) as Ht.
    { unfold Hooks.Run. cbn [fst]. destruct (Hooks.enabled s); cbn [negb].
      - apply HooksMore.foldl_traced.
      - cbn. by rewrite app_nil_r. }
    destruct (Hooks.Run (Hooks.traced call) Hooks.KindNewEvent ev (s, (w, tr)))
      as [s1 [w1 tr1]].
    cbn [fst snd] in Hs, Ht. subst s1 tr1.
    destruct (IH w1 (tr ++ (if Hooks.enabled s
                            then (λ cb, (cb, ev)) <$>
                                   Hooks.callbacks Hooks.KindNewEvent s
                            else []))) as [H1 H2].
    unfold inject_runs in H1, H2. split; [done|]. rewrite H2.
    destruct (Hooks.enabled s); cbn [fmap list_fmap concat];
      by rewrite <- ?app_assoc, ?app_nil_r.
Qed.

Lemma inject_runs_calls_per_event_witness :
  let s := Hooks.Attach Hooks.KindNewEvent 2%nat
             (Hooks.Attach Hooks.KindNewEvent 1%nat (Hooks.Enable Hooks.init)) in
  let evs := [AString "A"; AString "B"] in
  (inject_runs (Hooks.traced Hooks.recorder) evs (s, ([], []))).2.2 =
  [(1%nat, AString "A"); (2%nat, AString "A"); (1%nat, AString "B"); (2%nat, AString "B")].
Proof.
  intros s evs.
  rewrite (proj2 (inject_runs_calls_per_event Hooks.recorder evs s [] []
                    HooksProps.recorder_frame)).
  vm_compute. reflexivity.
Defined.

End Msc2836TestProps.
